(** * GameShelf front end: session store, collection manager, catalog search

    A shallow embedding of [frontend/src/App.js] (React + axios) and the
    properties the design document states about it.

    - JavaScript strings are sequences of UTF-16 code units, with [split],
      [trim] and truthiness as the code uses them.
    - [Browser] holds what the code touches outside React: [localStorage],
      [axios.defaults.headers.common], the requests sent, [console.error],
      [alert].
    - The async functions of [AuthProvider], [GameDetailsModal],
      [Collection] and [App] live in the monad [M]: state passing plus
      thrown axios errors, with [try_catch] and [finally]; an
      [await axios...] asks a server oracle for the answer.
    - [GameSearch] is an event machine: [searchGames] is cut at its
      [await], and timers coming due and responses settling are events, so
      responses may arrive in any order.

    The definitions come first; the facts follow. *)

From stdpp Require Import gmap strings list.
From Stdlib Require Import NArith Lia Ascii Sorted.

Set Default Proof Using "Type".

(* ===================================================================== *)
(** ** JavaScript strings *)
(* ===================================================================== *)

Module JsString.

(** A JS string is a finite sequence of UTF-16 code units; [s.length] is
    the number of code units. *)
Abbreviation jsstring := (list N) (only parsing).

(** A source literal (the literals of App.js are ASCII). *)
Definition lit (s : string) : jsstring :=
  map N_of_ascii (String.list_ascii_of_string s).

(** ToBoolean on a string: only the empty string is falsy. *)
Definition truthy (s : jsstring) : bool :=
  match s with [] => false | _ :: _ => true end.

(** ToBoolean on [string | null]. *)
Definition truthy_opt (o : option jsstring) : bool :=
  match o with Some s => truthy s | None => false end.

(** A value whose type the code does not fix, such as a field of a JSON
    answer: nothing at all, a string, or something else (null, a boolean, a
    number, an array, an object). Of the last kind the code only ever asks
    whether it is truthy and passes it on; [ident] tells two such values
    apart. *)
Inductive JsValue :=
| JsUndefined
| JsStr (s : jsstring)
| JsOther (truthy_value : bool) (ident : nat).

Definition ToBoolean (v : JsValue) : bool :=
  match v with
  | JsUndefined => false
  | JsStr s => truthy s
  | JsOther t _ => t
  end.

(** [a || b] with [b] a string: [a] itself when it is truthy, whatever its
    type, otherwise [b]. *)
Definition or_else (a : JsValue) (b : jsstring) : JsValue :=
  if ToBoolean a then a else JsStr b.

(** ECMAScript WhiteSpace and LineTerminator code points, the set
    [String.prototype.trim] strips. *)
Definition is_whitespace (c : N) : bool :=
  ((c =? 0x0009) || (c =? 0x000A) || (c =? 0x000B) || (c =? 0x000C)
   || (c =? 0x000D) || (c =? 0x0020) || (c =? 0x00A0) || (c =? 0x1680)
   || ((0x2000 <=? c) && (c <=? 0x200A))
   || (c =? 0x2028) || (c =? 0x2029) || (c =? 0x202F) || (c =? 0x205F)
   || (c =? 0x3000) || (c =? 0xFEFF))%N.

Fixpoint trimStart (s : jsstring) : jsstring :=
  match s with
  | [] => []
  | c :: s' => if is_whitespace c then trimStart s' else s
  end.

Definition trimEnd (s : jsstring) : jsstring :=
  reverse (trimStart (reverse s)).

(** [s.trim()] *)
Definition trim (s : jsstring) : jsstring := trimEnd (trimStart s).

(** [s.split(sep)] for a one-code-unit separator: the pieces between
    consecutive separators, empty pieces included; [''.split(',')] is
    [['']]. *)
Fixpoint split (sep : N) (s : jsstring) : list jsstring :=
  match s with
  | [] => [[]]
  | c :: s' =>
      if (c =? sep)%N then [] :: split sep s'
      else match split sep s' with
           | seg :: rest => (c :: seg) :: rest
           | [] => [[c]]
           end
  end.

(** [pieces.join(sep)] *)
Fixpoint join (sep : N) (pieces : list jsstring) : jsstring :=
  match pieces with
  | [] => []
  | [p] => p
  | p :: rest => p ++ sep :: join sep rest
  end.

(** UTF-16 surrogates. A string is well formed when every high surrogate
    is followed by a low one and no low surrogate stands alone. *)
Definition is_high_surrogate (c : N) : bool := ((0xD800 <=? c) && (c <=? 0xDBFF))%N.
Definition is_low_surrogate (c : N) : bool := ((0xDC00 <=? c) && (c <=? 0xDFFF))%N.

Fixpoint well_formed_utf16 (s : jsstring) : bool :=
  match s with
  | [] => true
  | c :: s' =>
      if is_high_surrogate c then
        match s' with
        | d :: s'' => is_low_surrogate d && well_formed_utf16 s''
        | [] => false
        end
      else if is_low_surrogate c then false
      else well_formed_utf16 s'
  end.

Definition comma : N := 0x2C%N.

(** *** What "the comma-separated segments" and "trimmed" mean,
    independently of the functions above. *)

(** [segs] are the [sep]-separated segments of [s]: gluing them back with
    [sep] gives [s], there is at least one, and none contains [sep]. *)
Definition is_segments (sep : N) (s : jsstring) (segs : list jsstring) : Prop :=
  segs ≠ [] ∧ join sep segs = s ∧ Forall (λ seg, sep ∉ seg) segs.

Definition all_whitespace (s : jsstring) : Prop :=
  Forall (λ c, is_whitespace c = true) s.

(** No whitespace at either end. *)
Definition no_outer_whitespace (t : jsstring) : Prop :=
  (∀ c, head t = Some c → is_whitespace c = false)
  ∧ (∀ c, last t = Some c → is_whitespace c = false).

(** [t] is [s] with the surrounding whitespace removed. *)
Definition is_trimmed (s t : jsstring) : Prop :=
  ∃ l r, s = l ++ t ++ r ∧ all_whitespace l ∧ all_whitespace r
         ∧ no_outer_whitespace t.

End JsString.
Import JsString.

(* ===================================================================== *)
(** ** Data exchanged with the API *)
(* ===================================================================== *)

(** [GET /auth/profile] *)
Record Profile := {
  username : jsstring;
  email : jsstring;
  collection_count : nat;
  wishlist_count : nat;
}.

(** One row of [GET /search]. *)
Record CatalogEntry := {
  bgg_id : nat;
  name : jsstring;
  year_published : option Z;
}.

(** One row of [GET /collection]. *)
Record CollectionItem := {
  item_id : nat;
  game : CatalogEntry;
  user_notes : jsstring;
  custom_tags : list jsstring;
  is_wishlist : bool;
  date_added : nat;
}.

(** The JSON body of [POST /collection], field for field. *)
Record CollectionBody := {
  body_bgg_id : nat;
  body_user_notes : jsstring;
  body_custom_tags : list jsstring;
  body_is_wishlist : bool;
}.

(** The axios calls of App.js. [GetSearch q] is
    [axios.get(`${API}/search?q=${encodeURIComponent(q)}`)], and so on. *)
Inductive Request :=
| PostLogin (username password : jsstring)
| PostRegister (username email password : jsstring)
| GetProfile
| GetSearch (q : jsstring)
| GetCollection (is_wishlist : bool)
| PostCollection (body : CollectionBody)
| DeleteCollection (collectionId : nat).

(** [response.data] of a fulfilled call. For the two auth calls it is the
    [access_token] the code destructures. *)
Definition resp_type (r : Request) : Type :=
  match r with
  | PostLogin _ _ | PostRegister _ _ _ => jsstring
  | GetProfile => Profile
  | GetSearch _ => list CatalogEntry
  | GetCollection _ => list CollectionItem
  | PostCollection _ => CollectionItem
  | DeleteCollection _ => unit
  end.

(** What a rejected axios promise carries: [error.response] is undefined
    when nothing came back (network failure), otherwise it has the HTTP
    status and, from this API, [data.detail]. *)
Record ErrorResponse := {
  http_status : nat;
  detail : JsValue;
}.

Record AxiosError := {
  response : option ErrorResponse;
}.

(** [error.response?.data?.detail] *)
Definition error_detail (e : AxiosError) : JsValue :=
  match response e with
  | Some r => detail r
  | None => JsUndefined
  end.

Definition network_failure : AxiosError := {| response := None |}.
Definition http_error_with (code : nat) (d : JsValue) : AxiosError :=
  {| response := Some {| http_status := code; detail := d |} |}.

(** An error answer whose [detail] is a string, or is missing. *)
Definition http_error (code : nat) (d : option jsstring) : AxiosError :=
  http_error_with code (match d with Some s => JsStr s | None => JsUndefined end).

(** A request as it leaves the browser: axios adds
    [axios.defaults.headers.common['Authorization']] when it is set. *)
Record Sent := {
  req : Request;
  authorization : option jsstring;
}.

(* ===================================================================== *)
(** ** The browser and the components' state *)
(* ===================================================================== *)

Record Browser := {
  localStorage : gmap string jsstring;
  headers_common : gmap string jsstring;
  sent : list Sent;                              (* oldest first *)
  console : list (jsstring * AxiosError);        (* console.error calls *)
  alerts : list jsstring;                        (* alert() calls *)
}.

(** [useState] cells of [AuthProvider]. *)
Record AuthState := {
  user : option Profile;
  token : option jsstring;
  loading : bool;
}.

(** [useState] cells of [GameDetailsModal] that [handleAddToCollection]
    reads or writes. *)
Record ModalState := {
  userNotes : jsstring;
  customTags : jsstring;
  isWishlist : bool;
  adding : bool;
}.

(** [useState] cells of [Collection] that the list operation reads or
    writes. *)
Record CollectionState := {
  collection : list CollectionItem;
  coll_loading : bool;
}.

(** [useState] cells of [App]. *)
Record AppState := {
  selectedGame : option CatalogEntry;
}.

Record World := {
  browser : Browser;
  auth : AuthState;
  modal : ModalState;
  coll : CollectionState;
  app : AppState;
}.

Definition with_browser (f : Browser → Browser) (w : World) : World :=
  {| browser := f (browser w); auth := auth w; modal := modal w;
     coll := coll w; app := app w |}.
Definition with_auth (f : AuthState → AuthState) (w : World) : World :=
  {| browser := browser w; auth := f (auth w); modal := modal w;
     coll := coll w; app := app w |}.
Definition with_modal (f : ModalState → ModalState) (w : World) : World :=
  {| browser := browser w; auth := auth w; modal := f (modal w);
     coll := coll w; app := app w |}.
Definition with_coll (f : CollectionState → CollectionState) (w : World) : World :=
  {| browser := browser w; auth := auth w; modal := modal w;
     coll := f (coll w); app := app w |}.
Definition with_app (f : AppState → AppState) (w : World) : World :=
  {| browser := browser w; auth := auth w; modal := modal w;
     coll := coll w; app := f (app w) |}.

(** The page as a fresh load finds it: nothing stored, nothing attached,
    every [useState] at its initial value. *)
Definition initial_auth : AuthState :=
  {| user := None; token := None; loading := true |}.
Definition initial_modal : ModalState :=
  {| userNotes := []; customTags := []; isWishlist := false; adding := false |}.
Definition initial_coll : CollectionState :=
  {| collection := []; coll_loading := true |}.
Definition initial_app : AppState := {| selectedGame := None |}.

Definition fresh_browser (storage : gmap string jsstring) (history : list Sent) : Browser :=
  {| localStorage := storage; headers_common := ∅; sent := history;
     console := []; alerts := [] |}.

Definition initial_world : World :=
  {| browser := fresh_browser ∅ []; auth := initial_auth;
     modal := initial_modal; coll := initial_coll; app := initial_app |}.

(** Reloading the page: the JS heap (React state, axios defaults) starts
    over, [localStorage] survives. The record of requests already sent is
    history and is kept. *)
Definition reload (w : World) : World :=
  {| browser := fresh_browser (localStorage (browser w)) (sent (browser w));
     auth := initial_auth; modal := initial_modal; coll := initial_coll;
     app := initial_app |}.

(* ===================================================================== *)
(** ** The monad of the async functions *)
(* ===================================================================== *)

(** The API as the front end sees it: the answer to the [n]-th request
    sent, a fulfilled [response.data] or a rejection. Indexing by [n] lets
    the same request be answered differently over time. *)
Definition Server : Type :=
  ∀ (n : nat) (s : Sent), resp_type (req s) + AxiosError.

(** A computation reads the server, threads the world, and either returns
    or throws. Each async function runs through its awaits without another
    session transition in between. *)
Definition M (A : Type) : Type :=
  Server → World → World * (A + AxiosError).

Definition ret {A} (a : A) : M A := λ _ w, (w, inl a).

Definition bind {A B} (m : M A) (k : A → M B) : M B :=
  λ srv w,
    match m srv w with
    | (w', inl a) => k a srv w'
    | (w', inr e) => (w', inr e)
    end.

#[global] Instance M_ret : MRet M := @ret.
#[global] Instance M_bind : MBind M := λ A B k m, bind m k.

(** [try { body } catch (error) { handler }] *)
Definition try_catch {A} (body : M A) (handler : AxiosError → M A) : M A :=
  λ srv w,
    match body srv w with
    | (w', inl a) => (w', inl a)
    | (w', inr e) => handler e srv w'
    end.

(** [... finally { cleanup }]: the cleanup runs either way; the outcome is
    the block's unless the cleanup itself throws. *)
Definition finally {A} (block : M A) (cleanup : M unit) : M A :=
  λ srv w,
    match block srv w with
    | (w', r) =>
        match cleanup srv w' with
        | (w'', inl _) => (w'', r)
        | (w'', inr e) => (w'', inr e)
        end
    end.

Definition get_world : M World := λ _ w, (w, inl w).
Definition modify (f : World → World) : M unit := λ _ w, (f w, inl ()).

(** [await axios.<verb>(...)]: the request leaves with the Authorization
    header attached at that moment, and the server's answer comes back. *)
Definition axios (r : Request) : M (resp_type r) :=
  λ srv w,
    let s := {| req := r;
                authorization := headers_common (browser w) !! "Authorization" |} in
    (with_browser (λ b, {| localStorage := localStorage b;
                           headers_common := headers_common b;
                           sent := sent b ++ [s];
                           console := console b; alerts := alerts b |}) w,
     srv (length (sent (browser w))) s).

Definition localStorage_getItem (key : string) : M (option jsstring) :=
  w ← get_world; mret (localStorage (browser w) !! key).

Definition localStorage_setItem (key : string) (v : jsstring) : M unit :=
  modify (with_browser (λ b,
    {| localStorage := <[key := v]> (localStorage b);
       headers_common := headers_common b; sent := sent b;
       console := console b; alerts := alerts b |})).

Definition localStorage_removeItem (key : string) : M unit :=
  modify (with_browser (λ b,
    {| localStorage := delete key (localStorage b);
       headers_common := headers_common b; sent := sent b;
       console := console b; alerts := alerts b |})).

(** [axios.defaults.headers.common[h] = v] *)
Definition set_default_header (h : string) (v : jsstring) : M unit :=
  modify (with_browser (λ b,
    {| localStorage := localStorage b;
       headers_common := <[h := v]> (headers_common b); sent := sent b;
       console := console b; alerts := alerts b |})).

(** [delete axios.defaults.headers.common[h]] *)
Definition delete_default_header (h : string) : M unit :=
  modify (with_browser (λ b,
    {| localStorage := localStorage b;
       headers_common := delete h (headers_common b); sent := sent b;
       console := console b; alerts := alerts b |})).

Definition console_error (msg : string) (e : AxiosError) : M unit :=
  modify (with_browser (λ b,
    {| localStorage := localStorage b; headers_common := headers_common b;
       sent := sent b; console := console b ++ [(lit msg, e)];
       alerts := alerts b |})).

Definition alert (msg : string) : M unit :=
  modify (with_browser (λ b,
    {| localStorage := localStorage b; headers_common := headers_common b;
       sent := sent b; console := console b;
       alerts := alerts b ++ [lit msg] |})).

(* ===================================================================== *)
(** ** AuthProvider *)
(* ===================================================================== *)

Definition setUser (u : option Profile) : M unit :=
  modify (with_auth (λ a, {| user := u; token := token a; loading := loading a |})).
Definition setToken (t : option jsstring) : M unit :=
  modify (with_auth (λ a, {| user := user a; token := t; loading := loading a |})).
Definition setLoading (b : bool) : M unit :=
  modify (with_auth (λ a, {| user := user a; token := token a; loading := b |})).

(** `Bearer ${t}` *)
Definition bearer (t : jsstring) : jsstring := lit "Bearer " ++ t.

(** The effect [AuthProvider] runs once on mount. *)
Definition initializeAuth : M unit :=
  storedToken ← localStorage_getItem "gameshelf_token";
  match storedToken with
  | Some tok =>
      if truthy tok then
        try_catch
          (set_default_header "Authorization" (bearer tok);;
           setToken (Some tok);;
           response ← axios GetProfile;
           setUser (Some response))
          (λ error,
             console_error "Token validation failed:" error;;
             localStorage_removeItem "gameshelf_token";;
             delete_default_header "Authorization";;
             setToken None;;
             setUser None)
      else mret ()
  | None => mret ()
  end;;
  setLoading false.

(** [{ success: true }] or [{ success: false, error: ... }], where the
    error is whatever [detail || 'fallback'] gave. *)
Record AuthResult := {
  success : bool;
  error : option JsValue;
}.

Definition login (username password : jsstring) : M AuthResult :=
  try_catch
    (access_token ← axios (PostLogin username password);
     localStorage_setItem "gameshelf_token" access_token;;
     setToken (Some access_token);;
     set_default_header "Authorization" (bearer access_token);;
     profileResponse ← axios GetProfile;
     setUser (Some profileResponse);;
     mret {| success := true; error := None |})
    (λ error,
       console_error "Login error:" error;;
       mret {| success := false;
               error := Some (or_else (error_detail error)
                                (lit "Login failed. Please check your credentials.")) |}).

Definition register (username email password : jsstring) : M AuthResult :=
  try_catch
    (access_token ← axios (PostRegister username email password);
     localStorage_setItem "gameshelf_token" access_token;;
     setToken (Some access_token);;
     set_default_header "Authorization" (bearer access_token);;
     profileResponse ← axios GetProfile;
     setUser (Some profileResponse);;
     mret {| success := true; error := None |})
    (λ error,
       console_error "Registration error:" error;;
       mret {| success := false;
               error := Some (or_else (error_detail error)
                                (lit "Registration failed. Please try again.")) |}).

Definition logout : M unit :=
  localStorage_removeItem "gameshelf_token";;
  setToken None;;
  setUser None;;
  delete_default_header "Authorization".

Definition refreshProfile : M unit :=
  w ← get_world;
  if truthy_opt (token (auth w)) then
    try_catch
      (response ← axios GetProfile;
       setUser (Some response))
      (λ error,
         console_error "Failed to refresh profile:" error;;
         logout)
  else mret ().

(** *** The session as the design document names it

    The code keeps no status field; the document's [status] is read off the
    three cells by its own invariant: a profile is present exactly when
    [Authenticated]; before [initializeAuth] has settled the session is
    [Initializing]; a token without a profile is [Invalid]. *)
Inductive Status := Initializing | Anonymous | Authenticated | Invalid.

Definition status (a : AuthState) : Status :=
  match user a with
  | Some _ => Authenticated
  | None =>
      if loading a then Initializing
      else match token a with
           | Some _ => Invalid
           | None => Anonymous
           end
  end.

Definition persisted_token (w : World) : option jsstring :=
  localStorage (browser w) !! "gameshelf_token".

Definition authority_header (w : World) : option jsstring :=
  headers_common (browser w) !! "Authorization".

(** Requests sent by a run that took the world from [w] to [w']. *)
Definition sent_since (w w' : World) : list Sent :=
  drop (length (sent (browser w))) (sent (browser w')).

(* ===================================================================== *)
(** ** App: the callbacks it hands to its children *)
(* ===================================================================== *)

Definition setSelectedGame (g : option CatalogEntry) : M unit :=
  modify (with_app (λ _, {| selectedGame := g |})).

(** [const fetchCounts = async () => { /* comment only */ }] *)
Definition fetchCounts : M unit := mret ().

(** [App]'s [handleAddToCollection], passed to the modal as
    [onAddToCollection]. *)
Definition App_handleAddToCollection : M unit := fetchCounts.

(** [onClose={() => setSelectedGame(null)}] *)
Definition App_onClose : M unit := setSelectedGame None.

(* ===================================================================== *)
(** ** GameDetailsModal *)
(* ===================================================================== *)

Definition setAdding (b : bool) : M unit :=
  modify (with_modal (λ m, {| userNotes := userNotes m; customTags := customTags m;
                              isWishlist := isWishlist m; adding := b |})).

(** [customTags.split(',').map(tag => tag.trim()).filter(tag => tag)] *)
Definition parse_tags (customTags : jsstring) : list jsstring :=
  List.filter truthy (map trim (split comma customTags)).

(** [handleAddToCollection] of the modal, with its props [game], [onClose]
    and [onAddToCollection]. The early [return] leaves before the [try], so
    its [finally] does not run on that path. *)
Definition handleAddToCollection
    (game : CatalogEntry) (onClose onAddToCollection : M unit) : M unit :=
  w ← get_world;
  match user (auth w) with
  | None => alert "Please sign in to add games to your collection."
  | Some _ =>
      setAdding true;;
      finally
        (try_catch
           (let tags := parse_tags (customTags (modal w)) in
            _ ← axios (PostCollection
                         {| body_bgg_id := bgg_id game;
                            body_user_notes := userNotes (modal w);
                            body_custom_tags := tags;
                            body_is_wishlist := isWishlist (modal w) |});
            onAddToCollection;;
            onClose)
           (λ error,
              console_error "Error adding to collection:" error;;
              alert "This game is already in your collection!"))
        (setAdding false)
  end.

(* ===================================================================== *)
(** ** Collection *)
(* ===================================================================== *)

Definition setCollection (l : list CollectionItem) : M unit :=
  modify (with_coll (λ c, {| collection := l; coll_loading := coll_loading c |})).
Definition setCollLoading (b : bool) : M unit :=
  modify (with_coll (λ c, {| collection := collection c; coll_loading := b |})).

Definition fetchCollection (isWishlist : bool) : M unit :=
  setCollLoading true;;
  finally
    (try_catch
       (response ← axios (GetCollection isWishlist);
        setCollection response)
       (λ error, console_error "Error fetching collection:" error))
    (setCollLoading false).

(** The component's effect, run on mount and when [isWishlist] or [user]
    changes. *)
Definition Collection_effect (isWishlist : bool) : M unit :=
  w ← get_world;
  match user (auth w) with
  | Some _ => fetchCollection isWishlist
  | None => setCollLoading false
  end.

(** [fetchCollection()] and [onRefresh()] are both started without
    [await]; [onRefresh] touches nothing (see [fetchCounts]), so running
    the fetch to completion first loses no interleaving. *)
Definition removeFromCollection
    (isWishlist : bool) (onRefresh : M unit) (collectionId : nat) : M unit :=
  try_catch
    (_ ← axios (DeleteCollection collectionId);
     fetchCollection isWishlist;;
     onRefresh)
    (λ error, console_error "Error removing from collection:" error).

(* ===================================================================== *)
(** ** Collection: the filter and the sort *)
(* ===================================================================== *)

(** [s.startsWith(p)] and [s.includes(p)] on code units. *)
Fixpoint startsWith (s p : jsstring) : bool :=
  match p, s with
  | [], _ => true
  | _ :: _, [] => false
  | a :: p', b :: s' => (a =? b)%N && startsWith s' p'
  end.

Fixpoint includes (s p : jsstring) : bool :=
  startsWith s p
  || match s with
     | [] => false
     | _ :: s' => includes s' p
     end.

(** [year_published || 0]: a year is an integer, negative for a game
    from before the common era; a missing year, like the year 0, counts
    as 0. *)
Definition year_or_0 (item : CollectionItem) : Z :=
  default 0%Z (year_published (game item)).

(** The comparator of the 'year' case:
    [(b.game.year_published || 0) - (a.game.year_published || 0)]. *)
Definition compare_year (a b : CollectionItem) : Z :=
  (year_or_0 b - year_or_0 a)%Z.

(** The comparator of the default case:
    [new Date(b.date_added) - new Date(a.date_added)], with [date_added]
    holding the time value of the date the authority sent. *)
Definition compare_date (a b : CollectionItem) : Z :=
  (Z.of_nat (date_added b) - Z.of_nat (date_added a))%Z.

(** [Array.prototype.sort(cmp)]. The language requires the sort to be
    stable; for a comparator that orders its arguments consistently that
    fixes the result, which insertion from the right computes: an element
    goes in front of the first one it does not have to follow. *)
Fixpoint sort_insert {A} (cmp : A → A → Z) (x : A) (l : list A) : list A :=
  match l with
  | [] => [x]
  | y :: l' => if (0 <? cmp x y)%Z then y :: sort_insert cmp x l' else x :: l
  end.

Fixpoint Array_sort {A} (cmp : A → A → Z) (l : list A) : list A :=
  match l with
  | [] => []
  | x :: l' => sort_insert cmp x (Array_sort cmp l')
  end.

(** From the latest year down, a game without a year standing where the
    year 0 would: the order the 'year' comparator asks for. *)
Definition year_desc (a b : CollectionItem) : Prop :=
  (year_or_0 b ≤ year_or_0 a)%Z.

(** Latest addition first: the order the default comparator asks for. *)
Definition newest_first (a b : CollectionItem) : Prop :=
  date_added b ≤ date_added a.

(** A rearrangement that keeps games of the same year in the order they
    had. *)
Definition same_order_within_years (l l' : list CollectionItem) : Prop :=
  ∀ y, filter (λ item, year_or_0 item = y) l'
       = filter (λ item, year_or_0 item = y) l.

(** A rearrangement that keeps items added at the same time in the order
    they had. *)
Definition same_order_within_dates (l l' : list CollectionItem) : Prop :=
  ∀ d, filter (λ item, date_added item = d) l'
       = filter (λ item, date_added item = d) l.

(** [p] occurs in [s] as a run of consecutive code units. *)
Definition occurs_in (p s : jsstring) : Prop := ∃ l r, s = l ++ p ++ r.

Section CollectionView.

(** [String.prototype.toLowerCase], whose case tables are not spelt out
    here: what follows holds for any function in its place. *)
Variable toLowerCase : jsstring → jsstring.

(** The predicate of [collection.filter(...)]. *)
Definition matches_filter (filter_text : jsstring) (item : CollectionItem) : bool :=
  includes (toLowerCase (name (game item))) (toLowerCase filter_text)
  || existsb (λ tag, includes (toLowerCase tag) (toLowerCase filter_text))
       (custom_tags item).

(** [filteredAndSortedCollection] with [sortBy === 'year']. *)
Definition filtered_by_year (filter_text : jsstring)
    (collection : list CollectionItem) : list CollectionItem :=
  Array_sort compare_year (List.filter (matches_filter filter_text) collection).

End CollectionView.

(** What is left to the JavaScript engine or lies outside the records
    here; the facts below hold whatever stands in their place. *)
Class Builtins := {
  (** [s.toLowerCase()] *)
  String_toLowerCase : jsstring → jsstring;
  (** [a.localeCompare(b)], by its sign *)
  String_localeCompare : jsstring → jsstring → Z;
  (** [(b.game.bgg_rating || 0) - (a.game.bgg_rating || 0)], a difference
      of floating-point ratings, by its sign *)
  compare_rating : CollectionItem → CollectionItem → Z;
  (** the empty string has no letter to change *)
  toLowerCase_empty : String_toLowerCase [] = [];
}.

(** The [filter] and [sortBy] cells of [Collection], set by the filter box
    and the sort selector. *)
Record CollectionControls := {
  filter_text : jsstring;
  sortBy : jsstring;
}.

(** [useState('')] and [useState('date_added')] *)
Definition initial_controls : CollectionControls :=
  {| filter_text := []; sortBy := lit "date_added" |}.

(** The comparator handed to [sort]: the [switch] on [sortBy]. *)
Definition sort_comparator {engine : Builtins} (sort_by : jsstring)
    (a b : CollectionItem) : Z :=
  if decide (sort_by = lit "name")
  then String_localeCompare (name (game a)) (name (game b))
  else if decide (sort_by = lit "rating") then compare_rating a b
  else if decide (sort_by = lit "year") then compare_year a b
  else compare_date a b.

(** [collection.filter(...).sort(...)] *)
Definition filteredAndSortedCollection {engine : Builtins} (c : CollectionControls)
    (collection : list CollectionItem) : list CollectionItem :=
  Array_sort (sort_comparator (sortBy c))
    (List.filter (matches_filter String_toLowerCase (filter_text c)) collection).

#[global] Arguments filteredAndSortedCollection : simpl never.

(** What the component renders, in the order of its [return]s. The grid
    shows [filteredAndSortedCollection]; the empty-list screen depends on
    the list held, not on what the filter leaves. *)
Inductive View :=
| LoginPromptView
| LoadingView
| EmptyView
| GridView (items : list CollectionItem).

Definition Collection_render {engine : Builtins} (c : CollectionControls) (w : World)
  : View :=
  match user (auth w) with
  | None => LoginPromptView
  | Some _ =>
      if coll_loading (coll w) then LoadingView
      else match collection (coll w) with
           | [] => EmptyView
           | items => GridView (filteredAndSortedCollection c items)
           end
  end.

Definition items_shown (v : View) : list CollectionItem :=
  match v with
  | GridView items => items
  | _ => []
  end.

(** The effect of [Collection] runs for one list flag, then the component
    renders, its filter box and sort selector as [c] has them. *)
Definition list_collection_with {engine : Builtins} (c : CollectionControls)
    (isWishlist : bool) : M View :=
  Collection_effect isWishlist;;
  w ← get_world;
  mret (Collection_render c w).

(** The list operation of the collection manager: mount [Collection] for
    one list flag (its effect runs), then look at what it shows. On mount
    the filter box is empty and the selector on 'date_added'. *)
Definition list_collection {engine : Builtins} (isWishlist : bool) : M View :=
  list_collection_with initial_controls isWishlist.

(** *** The components as [App] mounts them

    [<GameDetailsModal game={selectedGame} onClose={() => setSelectedGame(null)}
      onAddToCollection={handleAddToCollection} />] and
    [<Collection isWishlist={...} onRefresh={fetchCounts} />]. *)
Definition add_to_collection (game : CatalogEntry) : M unit :=
  handleAddToCollection game App_onClose App_handleAddToCollection.

Definition remove_from_collection (isWishlist : bool) (collectionId : nat) : M unit :=
  removeFromCollection isWishlist fetchCounts collectionId.

(** The body [add_to_collection] posts from the modal's fields. *)
Definition add_body (game : CatalogEntry) (m : ModalState) : CollectionBody :=
  {| body_bgg_id := bgg_id game;
     body_user_notes := userNotes m;
     body_custom_tags := parse_tags (customTags m);
     body_is_wishlist := isWishlist m |}.

(** Everything a run leaves behind that the code calling it, or the person
    at the screen, can look at: the value returned, the alerts, every
    component's state, storage, headers, the requests sent, and the text
    of each console line. Only the error object printed after a console
    line's text is left out. *)
Definition caller_view (r : World * (unit + AxiosError)) :=
  (r.2, alerts (browser r.1), map fst (console (browser r.1)),
   sent (browser r.1), localStorage (browser r.1),
   headers_common (browser r.1), auth r.1, modal r.1, coll r.1, app r.1).

(* ===================================================================== *)
(** ** GameSearch: debounced search as an event machine *)
(* ===================================================================== *)

(** Several searches can be outstanding at once, so [searchGames] is cut at
    its [await]: [searchGames_call] is the part that runs when the function
    is called, [searchGames_resume] the part that runs when the response
    settles. Keystrokes, the passing of time, a timer coming due and a
    response settling are the events; each handler sees the state the last
    event left, as React re-renders between discrete events. *)

(** [useState] cells of [GameSearch]. *)
Record GameSearch := {
  query : jsstring;
  searchResults : list CatalogEntry;
  search_loading : bool;
  searchTimeout : option nat;
}.

(** A [setTimeout] entry not yet run or cleared. The callback is
    [() => searchGames(value)], so it is known by the [value] it closes
    over. *)
Record Timer := {
  timer_id : nat;
  due : nat;                 (* clock reading from which it may run *)
  timer_arg : jsstring;
}.

(** An [axios.get] of [searchGames] whose promise has not settled; requests
    are numbered in the order sent. *)
Record Flight := {
  flight_id : nat;
  flight_query : jsstring;
}.

(** What the [catch] of [searchGames] can be handed: a rejected axios
    promise, or the URIError [encodeURIComponent] throws on a text that is
    not well-formed UTF-16. *)
Inductive Caught :=
| Rejected (e : AxiosError)
| URIError.

Coercion Rejected : AxiosError >-> Caught.

Record SearchWorld := {
  ui : GameSearch;
  clock : nat;                           (* milliseconds *)
  timers : list Timer;
  next_timer : nat;                      (* next id [setTimeout] hands out *)
  in_flight : list Flight;
  requests : list jsstring;              (* q of every GET /search sent *)
  search_console : list (jsstring * Caught);
}.

Definition with_ui (f : GameSearch → GameSearch) (w : SearchWorld) : SearchWorld :=
  {| ui := f (ui w); clock := clock w; timers := timers w;
     next_timer := next_timer w; in_flight := in_flight w;
     requests := requests w; search_console := search_console w |}.

Definition setQuery (v : jsstring) : SearchWorld → SearchWorld :=
  with_ui (λ g, {| query := v; searchResults := searchResults g;
                   search_loading := search_loading g;
                   searchTimeout := searchTimeout g |}).
Definition setSearchResults (l : list CatalogEntry) : SearchWorld → SearchWorld :=
  with_ui (λ g, {| query := query g; searchResults := l;
                   search_loading := search_loading g;
                   searchTimeout := searchTimeout g |}).
Definition setSearchLoading (b : bool) : SearchWorld → SearchWorld :=
  with_ui (λ g, {| query := query g; searchResults := searchResults g;
                   search_loading := b; searchTimeout := searchTimeout g |}).
Definition setSearchTimeout (t : option nat) : SearchWorld → SearchWorld :=
  with_ui (λ g, {| query := query g; searchResults := searchResults g;
                   search_loading := search_loading g; searchTimeout := t |}).

(** [setTimeout(() => searchGames(arg), delay)]: registers the callback
    and returns its id. *)
Definition setTimeout (arg : jsstring) (delay : nat) (w : SearchWorld)
  : nat * SearchWorld :=
  (next_timer w,
   {| ui := ui w; clock := clock w;
      timers := timers w ++ [{| timer_id := next_timer w;
                                due := clock w + delay;
                                timer_arg := arg |}];
      next_timer := S (next_timer w); in_flight := in_flight w;
      requests := requests w; search_console := search_console w |}).

(** [clearTimeout(id)]: drops the entry if it is still there. *)
Definition clearTimeout (id : nat) (w : SearchWorld) : SearchWorld :=
  {| ui := ui w; clock := clock w;
     timers := filter (λ t, timer_id t ≠ id) (timers w);
     next_timer := next_timer w; in_flight := in_flight w;
     requests := requests w; search_console := search_console w |}.

(** [console.error('Search error:', error); setSearchResults([])]: the
    [catch] of [searchGames]. *)
Definition searchGames_catch (error : Caught) (w : SearchWorld) : SearchWorld :=
  setSearchResults []
    {| ui := ui w; clock := clock w; timers := timers w;
       next_timer := next_timer w; in_flight := in_flight w;
       requests := requests w;
       search_console := search_console w ++ [(lit "Search error:", error)] |}.

(** A text for which [searchGames] gets as far as sending its request: two
    code units or more, and [encodeURIComponent] does not throw on it. *)
Definition sendable (q : jsstring) : bool :=
  (2 <=? length q) && well_formed_utf16 q.

(** [searchGames(searchQuery)] up to its [await]. The short-query branch
    returns before the [try], so nothing is left to resume. Inside the
    [try] the URL is built first: [encodeURIComponent] throws a URIError on
    an unpaired surrogate, and then no request leaves; the [catch] and the
    [finally] run at once. *)
Definition searchGames_call (searchQuery : jsstring) (w : SearchWorld) : SearchWorld :=
  if length searchQuery <? 2 then setSearchResults [] w
  else
    let w1 := setSearchLoading true w in
    if well_formed_utf16 searchQuery then
      {| ui := ui w1; clock := clock w1; timers := timers w1;
         next_timer := next_timer w1;
         in_flight := in_flight w1 ++ [{| flight_id := length (requests w1);
                                          flight_query := searchQuery |}];
         requests := requests w1 ++ [searchQuery];
         search_console := search_console w1 |}
    else setSearchLoading false (searchGames_catch URIError w1).

(** [searchGames] from the [await] on: the [try] continues or the [catch]
    runs, then the [finally]. Nothing here looks at which request the
    response belongs to. *)
Definition searchGames_resume
    (r : list CatalogEntry + AxiosError) (w : SearchWorld) : SearchWorld :=
  let w1 :=
    match r with
    | inl data => setSearchResults data w
    | inr error => searchGames_catch error w
    end in
  setSearchLoading false w1.

(** [handleInputChange(e)] with [value = e.target.value]. In
    [if (searchTimeout)] both [null] and the number 0 are falsy. *)
Definition handleInputChange (value : jsstring) (w : SearchWorld) : SearchWorld :=
  let w1 := setQuery value w in
  let w2 :=
    match searchTimeout (ui w) with
    | Some (S _ as id) => clearTimeout id w1
    | _ => w1
    end in
  let '(timeout, w3) := setTimeout value 300 w2 in
  setSearchTimeout (Some timeout) w3.

Inductive Event :=
| Typed (value : jsstring)        (* the input's onChange *)
| Elapse (ms : nat)               (* time passes *)
| TimerFires (id : nat)           (* the event loop runs a timer callback *)
| Settles (flight : nat) (r : list CatalogEntry + AxiosError).

Definition find_timer (id : nat) (w : SearchWorld) : option Timer :=
  List.find (λ t, timer_id t =? id) (timers w).

Definition land_flight (f : nat) (w : SearchWorld) : SearchWorld :=
  {| ui := ui w; clock := clock w; timers := timers w;
     next_timer := next_timer w;
     in_flight := filter (λ fl, flight_id fl ≠ f) (in_flight w);
     requests := requests w; search_console := search_console w |}.

(** One event. A timer runs only once its delay has passed, and is then
    gone; a response can settle only for a request still in flight.
    [None]: the event cannot happen in this state. *)
Definition step (ev : Event) (w : SearchWorld) : option SearchWorld :=
  match ev with
  | Typed value => Some (handleInputChange value w)
  | Elapse ms =>
      Some {| ui := ui w; clock := clock w + ms; timers := timers w;
              next_timer := next_timer w; in_flight := in_flight w;
              requests := requests w; search_console := search_console w |}
  | TimerFires id =>
      match find_timer id w with
      | Some t =>
          if due t <=? clock w
          then Some (searchGames_call (timer_arg t) (clearTimeout id w))
          else None
      | None => None
      end
  | Settles f r =>
      if decide (f ∈ flight_id <$> in_flight w)
      then Some (searchGames_resume r (land_flight f w))
      else None
  end.

Fixpoint run (evs : list Event) (w : SearchWorld) : option SearchWorld :=
  match evs with
  | [] => Some w
  | ev :: evs' =>
      match step ev w with
      | Some w' => run evs' w'
      | None => None
      end
  end.

(** The component as mounted. Browsers hand out timer ids from 1. *)
Definition initial_search : SearchWorld :=
  {| ui := {| query := []; searchResults := []; search_loading := false;
              searchTimeout := None |};
     clock := 0; timers := []; next_timer := 1; in_flight := [];
     requests := []; search_console := [] |}.

Definition is_typing (ev : Event) : bool :=
  match ev with Typed _ => true | _ => false end.

Definition is_firing (ev : Event) : bool :=
  match ev with TimerFires _ => true | _ => false end.

(** Milliseconds that pass during a run of events. *)
Definition elapsed (evs : list Event) : nat :=
  sum_list (map (λ ev, match ev with Elapse ms => ms | _ => 0 end) evs).

(** The response to request number [f] arriving, fulfilled or rejected as
    [answers] has it. *)
Definition arrival (answers : nat → list CatalogEntry + AxiosError) (f : nat)
  : Event :=
  Settles f (answers f).


(** Calling [searchGames] for each query in turn. *)
Definition issue_all (qs : list jsstring) (w : SearchWorld) : SearchWorld :=
  foldl (λ w q, searchGames_call q w) w qs.

(** What holds of the timer table in every state the component can reach:
    at most one callback is pending, and it is the one whose id sits in
    [searchTimeout]; ids are positive, so [if (searchTimeout)] sees it. *)
Definition one_pending (w : SearchWorld) : Prop :=
  0 < next_timer w
  ∧ (timers w = []
     ∨ ∃ t, timers w = [t] ∧ searchTimeout (ui w) = Some (timer_id t)
            ∧ 0 < timer_id t).

(* ===================================================================== *)
(** ** Sessions over time *)
(* ===================================================================== *)

(** What a consumer of [AuthContext] can ask of the session store once the
    page is up. *)
Inductive SessionOp :=
| OpLogin (username password : jsstring)
| OpRegister (username email password : jsstring)
| OpLogout
| OpRefreshProfile.

Definition run_op (op : SessionOp) : M unit :=
  match op with
  | OpLogin u p => _ ← login u p; mret ()
  | OpRegister u e p => _ ← register u e p; mret ()
  | OpLogout => logout
  | OpRefreshProfile => refreshProfile
  end.

(** One call after another, each awaited before the next starts. *)
Fixpoint run_ops (ops : list SessionOp) : M unit :=
  match ops with
  | [] => mret ()
  | op :: ops' => run_op op;; run_ops ops'
  end.

(** The token cell, the persisted slot and the Authorization header tell
    the same story, and a profile is only held together with a token. *)
Definition in_lockstep (w : World) : Prop :=
  persisted_token w = token (auth w)
  ∧ authority_header w = bearer <$> token (auth w)
  ∧ (is_Some (user (auth w)) → is_Some (token (auth w))).

(** A request that needs the bearer credential. *)
Definition needs_bearer (r : Request) : bool :=
  match r with
  | GetProfile => true
  | _ => false
  end.

(** A request leaves with a credential when it needs one. *)
Definition carries_bearer (s : Sent) : Prop :=
  needs_bearer (req s) = true → is_Some (authorization s).

(** What one session operation is shown to do: return normally, keep the
    lockstep, and only ever add well-formed requests to those sent. *)
Definition keeps_lockstep (m : M unit) : Prop :=
  ∀ (srv : Server) (w : World),
    in_lockstep w →
    (m srv w).2 = inl ()
    ∧ in_lockstep (m srv w).1
    ∧ ∃ new, sent (browser (m srv w).1) = sent (browser w) ++ new
             ∧ Forall carries_bearer new.

(* ===================================================================== *)
(** ** AuthModal and the cell of [App] that opens it *)
(* ===================================================================== *)

(** [App]'s [authModal] cell. *)
Record AuthModalCell := {
  isOpen : bool;
  mode : jsstring;
}.

(** [openAuthModal(mode = 'login')] *)
Definition openAuthModal (m : option jsstring) : AuthModalCell :=
  {| isOpen := true; mode := default (lit "login") m |}.

(** [setAuthModal({ ...authModal, isOpen: false })] *)
Definition closeAuthModal (authModal : AuthModalCell) : AuthModalCell :=
  {| isOpen := false; mode := mode authModal |}.

(** [mode: authModal.mode === 'login' ? 'register' : 'login'] *)
Definition switchAuthMode (authModal : AuthModalCell) : AuthModalCell :=
  {| isOpen := isOpen authModal;
     mode := if decide (mode authModal = lit "login")
             then lit "register" else lit "login" |}.

Record FormData := {
  form_username : jsstring;
  form_email : jsstring;
  form_password : jsstring;
}.

Definition empty_form : FormData :=
  {| form_username := []; form_email := []; form_password := [] |}.

(** [useState] cells of [AuthModal]. *)
Record AuthModalState := {
  formData : FormData;
  modal_loading : bool;
  modal_error : JsValue;
}.

(** The effect on [isOpen] and [mode]: an open modal starts clean. *)
Definition AuthModal_effect (authModal : AuthModalCell) (st : AuthModalState)
  : AuthModalState :=
  if isOpen authModal
  then {| formData := empty_form; modal_loading := false;
          modal_error := JsStr [] |}
  else st.

(** [handleSubmit] of [AuthModal], with [onClose = closeAuthModal]. The two
    components' cells are passed in and handed back; the session store is
    reached through [M]. [setError('')] runs first, so the error line is
    empty unless a later [setError] fills it; [setError(result.error)] is
    handed whatever value the result carries. *)
Definition handleSubmit (authModal : AuthModalCell) (st : AuthModalState)
  : M (AuthModalCell * AuthModalState) :=
  let fd := formData st in
  '(cell, data, err) ←
    try_catch
      (result ← (if decide (mode authModal = lit "login")
                 then login (form_username fd) (form_password fd)
                 else register (form_username fd) (form_email fd) (form_password fd));
       if success result
       then mret (closeAuthModal authModal, empty_form, JsStr [])
       else mret (authModal, fd, default JsUndefined (error result)))
      (λ _, mret (authModal, fd,
                  JsStr (lit "An unexpected error occurred. Please try again.")));
  mret (cell, {| formData := data; modal_loading := false; modal_error := err |}).


(* ===================================================================== *)
(** ** What the cards and the details modal show *)
(* ===================================================================== *)

Definition lt_sign : N := 0x3C%N.
Definition gt_sign : N := 0x3E%N.

(** [s.replace(/<[^>]*>/g, '')]. A match starts at a '<' that has a '>'
    somewhere after it and ends at the first such '>', since [[^>]*] cannot
    step over one; a '<' with no '>' after it stays, as does every other
    code unit. [in_tag] says the scan is inside a match. *)
Fixpoint replace_tags (in_tag : bool) (s : jsstring) : jsstring :=
  match s with
  | [] => []
  | c :: s' =>
      if in_tag then
        if (c =? gt_sign)%N then replace_tags false s' else replace_tags true s'
      else if ((c =? lt_sign)%N && bool_decide (gt_sign ∈ s'))
      then replace_tags true s'
      else c :: replace_tags false s'
  end.

Definition strip_tags (s : jsstring) : jsstring := replace_tags false s.

(** A text holds no tag when no '<' in it has a '>' after it. *)
Definition tag_free (s : jsstring) : Prop :=
  ∀ l r, s = l ++ lt_sign :: r → gt_sign ∉ r.

(** [{description.replace(/<[^>]*>/g, '').substring(0, 400)}...] *)
Definition description_shown (description : jsstring) : jsstring :=
  take 400 (strip_tags description) ++ lit "...".

(** The tag chips of a collection card: [custom_tags.slice(0, 3)] and,
    when there are more than three, a "+n" chip with
    [n = custom_tags.length - 3]. *)
Definition tag_chips (tags : list jsstring) : list jsstring * option nat :=
  (take 3 tags, if 3 <? length tags then Some (length tags - 3) else None).

(* ===================================================================== *)
(** ** The earlier App, before accounts: its own [fetchCounts] *)
(* ===================================================================== *)

(** [collectionCount] and [wishlistCount], the two counter cells of the
    earlier [App]. *)
Record TabCounts := {
  collectionCount : nat;
  wishlistCount : nat;
}.

(** [await Promise.all([pa, pb])] once both promises have settled: the
    pair of values when both fulfil, otherwise the reason of the promise
    that rejected first; [second_first] says the second one did when both
    reject. *)
Definition Promise_all2 {A B} (second_first : bool)
    (ra : A + AxiosError) (rb : B + AxiosError) : (A * B) + AxiosError :=
  match ra, rb with
  | inl a, inl b => inl (a, b)
  | inr e, inl _ => inr e
  | inl _, inr e => inr e
  | inr ea, inr eb => inr (if second_first then eb else ea)
  end.

(** [fetchCounts] of the earlier [App]: both GETs are issued while the
    array is built, before anything is awaited. The counter cells are
    passed in and handed back. *)
Definition earlier_fetchCounts (second_first : bool) (counts : TabCounts)
  : M TabCounts :=
  try_catch
    (λ srv w,
       let '(w1, ra) := axios (GetCollection false) srv w in
       let '(w2, rb) := axios (GetCollection true) srv w1 in
       match Promise_all2 second_first ra rb with
       | inl (collectionRes, wishlistRes) =>
           (w2, inl {| collectionCount := length collectionRes;
                       wishlistCount := length wishlistRes |})
       | inr e => (w2, inr e)
       end)
    (λ error, console_error "Error fetching counts:" error;; mret counts).

(* ===================================================================== *)
(** ** Scenario data *)
(* ===================================================================== *)

#[global] Arguments lit : simpl never.
#[global] Arguments bearer : simpl never.

Definition alice : Profile :=
  {| username := lit "alice"; email := lit "alice@example.org";
     collection_count := 2; wishlist_count := 1 |}.

Definition catan : CatalogEntry :=
  {| bgg_id := 13; name := lit "Catan"; year_published := Some 1995%Z |}.

Definition catan_owned : CollectionItem :=
  {| item_id := 7; game := catan; user_notes := lit "a classic";
     custom_tags := [lit "family"]; is_wishlist := false; date_added := 100 |}.

(** A signed-in session, as a successful [login] leaves the browser and
    [AuthProvider], with one owned game already listed. *)
Definition signed_in (t : jsstring) (p : Profile) : World :=
  {| browser :=
       {| localStorage := {[ "gameshelf_token" := t ]};
          headers_common := {[ "Authorization" := bearer t ]};
          sent := []; console := []; alerts := [] |};
     auth := {| user := Some p; token := Some t; loading := false |};
     modal := initial_modal;
     coll := {| collection := [catan_owned]; coll_loading := false |};
     app := initial_app |}.

(** A settled anonymous session: [initializeAuth] found nothing stored. *)
Definition anonymous_world : World :=
  with_auth (λ a, {| user := None; token := None; loading := false |})
    initial_world.

(** The API is unreachable. *)
Definition srv_down : Server := λ _ _, inr network_failure.

(** The token exchange succeeds with [t]; the profile fetch that follows
    answers 500. *)
Definition srv_token_then_500 (t : jsstring) : Server := λ _ s,
  match req s as r return resp_type r + AxiosError with
  | PostLogin _ _ => inl t
  | _ => inr (http_error 500 None)
  end.

(** The authority refuses every write with 409 Conflict, as it does for a
    pair already present; everything else is unreachable. *)
Definition srv_conflict : Server := λ _ s,
  match req s as r return resp_type r + AxiosError with
  | PostCollection _ => inr (http_error 409 (Some (lit "Game already in collection")))
  | _ => inr network_failure
  end.

(** The profile the authority would report after one owned game is gone. *)
Definition alice_after : Profile :=
  {| username := lit "alice"; email := lit "alice@example.org";
     collection_count := 1; wishlist_count := 1 |}.

Definition carcassonne : CatalogEntry :=
  {| bgg_id := 822; name := lit "Carcassonne"; year_published := Some 2000%Z |}.

(** An authority that accepts every call and reports fresh counts. *)
Definition srv_ok : Server := λ _ s,
  match req s as r return resp_type r + AxiosError with
  | PostLogin _ _ | PostRegister _ _ _ => inl (lit "tok")
  | GetProfile => inl alice_after
  | GetSearch _ => inl []
  | GetCollection _ => inl []
  | PostCollection b =>
      inl {| item_id := 8; game := carcassonne; user_notes := body_user_notes b;
             custom_tags := body_custom_tags b;
             is_wishlist := body_is_wishlist b; date_added := 101 |}
  | DeleteCollection _ => inl ()
  end.

(** The modal filled in by hand: notes, a raw tag line, owned list. *)
Definition typed_tags (raw : string) (w : World) : World :=
  with_modal (λ m, {| userNotes := lit "gift"; customTags := lit raw;
                      isWishlist := false; adding := false |}) w.

Definition cat_results : list CatalogEntry :=
  [{| bgg_id := 13; name := lit "Catan"; year_published := Some 1995%Z |};
   {| bgg_id := 1111; name := lit "Cat Lady"; year_published := Some 2017%Z |}].

Definition catan_results : list CatalogEntry := [catan].


(** The catalog's answer to the first request is [cat_results], to the
    second [catan_results]; anything further is refused. *)
Definition sample_answers (f : nat) : list CatalogEntry + AxiosError :=
  match f with
  | 0 => inl cat_results
  | 1 => inl catan_results
  | _ => inr (http_error 429 None)
  end.

(** A page just loaded with [t] in the token slot. *)
Definition page_with_token (t : jsstring) : World :=
  {| browser := fresh_browser {[ "gameshelf_token" := t ]} [];
     auth := initial_auth; modal := initial_modal; coll := initial_coll;
     app := initial_app |}.

(** The authority knows one account, [alice] with password "pw" and token
    "tok"; a second registration under her name is refused with a reason. *)
Definition srv_accounts : Server := λ _ s,
  match req s as r return resp_type r + AxiosError with
  | PostLogin u p =>
      if decide (u = lit "alice" ∧ p = lit "pw") then inl (lit "tok")
      else inr (http_error 401 (Some (lit "Incorrect username or password")))
  | PostRegister u _ _ =>
      if decide (u = lit "alice")
      then inr (http_error 400 (Some (lit "Username already registered")))
      else inl (lit "tok2")
  | GetProfile =>
      if decide (authorization s = Some (bearer (lit "tok"))) then inl alice
      else inr (http_error 401 (Some (lit "Could not validate credentials")))
  | _ => inr network_failure
  end.

(** The authority holds one owned game for the signed-in user and an
    empty wishlist. *)
Definition srv_shelf : Server := λ _ s,
  match req s as r return resp_type r + AxiosError with
  | GetCollection false => inl [catan_owned]
  | GetCollection true => inl []
  | GetProfile => inl alice
  | _ => inr network_failure
  end.

(** Lower-casing of the ASCII letters, other code units unchanged. *)
Definition ascii_toLowerCase (s : jsstring) : jsstring :=
  map (λ c, if ((0x41 <=? c) && (c <=? 0x5A))%N then (c + 32)%N else c) s.

Definition carcassonne_owned : CollectionItem :=
  {| item_id := 8; game := carcassonne; user_notes := [];
     custom_tags := [lit "Tiles"; lit "family"]; is_wishlist := false;
     date_added := 101 |}.

Definition prototype : CatalogEntry :=
  {| bgg_id := 999; name := lit "Untitled prototype"; year_published := None |}.

Definition prototype_owned : CollectionItem :=
  {| item_id := 9; game := prototype; user_notes := lit "playtest copy";
     custom_tags := []; is_wishlist := false; date_added := 102 |}.

Definition shelf : list CollectionItem :=
  [prototype_owned; catan_owned; carcassonne_owned].

(** A game from long before the common era. *)
Definition senet : CatalogEntry :=
  {| bgg_id := 2399; name := lit "Senet"; year_published := Some (-3500)%Z |}.

Definition senet_owned : CollectionItem :=
  {| item_id := 10; game := senet; user_notes := [];
     custom_tags := [lit "ancient"]; is_wishlist := false; date_added := 103 |}.

Definition old_shelf : list CollectionItem :=
  [senet_owned; prototype_owned; catan_owned].

(** Code units compared one by one, a proper prefix first. *)
Fixpoint compare_code_units (a b : jsstring) : Z :=
  match a, b with
  | [], [] => 0
  | [], _ :: _ => -1
  | _ :: _, [] => 1
  | x :: a', y :: b' =>
      if (x <? y)%N then -1 else if (y <? x)%N then 1
      else compare_code_units a' b'
  end.

(** An engine that lower-cases the ASCII letters and compares strings by
    code units, over games that all lack a rating. *)
Definition ascii_engine : Builtins :=
  {| String_toLowerCase := ascii_toLowerCase;
     String_localeCompare := compare_code_units;
     compare_rating := λ _ _, 0%Z;
     toLowerCase_empty := eq_refl |}.

(** The authority holds the three games of [shelf], in that order, for
    the signed-in user, and an empty wishlist. *)
Definition srv_three : Server := λ _ s,
  match req s as r return resp_type r + AxiosError with
  | GetCollection false => inl shelf
  | GetCollection true => inl []
  | GetProfile => inl alice
  | _ => inr network_failure
  end.

(** The sign-in form filled in with [u] and [pw] (and an address, used
    only when registering). *)
Definition form_filled (u pw : string) : AuthModalState :=
  {| formData := {| form_username := lit u; form_email := lit "a@example.org";
                    form_password := lit pw |};
     modal_loading := false; modal_error := JsStr [] |}.

(** The authority rejects what it is sent as invalid: status 422 with an
    array of findings as [detail]. *)
Definition srv_validation : Server := λ _ _,
  inr (http_error_with 422 (JsOther true 422)).

(* ===================================================================== *)
(** ** Proof support *)
(* ===================================================================== *)

Ltac unfold_m :=
  unfold mbind, mret, M_bind, M_ret, bind, ret, try_catch, finally,
    get_world, modify in *.

Ltac unfold_browser :=
  unfold axios, localStorage_getItem, localStorage_setItem,
    localStorage_removeItem, set_default_header, delete_default_header,
    console_error, alert in *.

Ltac unfold_setters :=
  unfold setUser, setToken, setLoading, setAdding, setCollection,
    setCollLoading, setSelectedGame in *.

Ltac unfold_view :=
  unfold persisted_token, authority_header, sent_since, status in *.

(** Open one function and run it symbolically as far as it goes. *)
Ltac run_code f :=
  unfold f; unfold_browser; unfold_setters; unfold_m; unfold_view; cbn.

(* ===================================================================== *)
(** ** Facts about [split], [join] and [trim] *)
(* ===================================================================== *)

Lemma split_nonempty sep s : split sep s ≠ [].
Proof.
  destruct s as [|c s]; simpl; [done|].
  destruct (c =? sep)%N; [done|].
  by destruct (split sep s).
Qed.

Lemma join_cons sep p q rest :
  join sep (p :: q :: rest) = p ++ sep :: join sep (q :: rest).
Proof. done. Qed.

Lemma join_split sep s : join sep (split sep s) = s.
Proof.
  induction s as [|c s IH]; [done|].
  simpl. destruct (N.eqb_spec c sep) as [->|Hne].
  - pose proof (split_nonempty sep s) as Hs.
    destruct (split sep s) as [|q rest] eqn:E; [done|].
    by rewrite join_cons, IH.
  - destruct (split sep s) as [|seg rest] eqn:E.
    + by destruct (split_nonempty sep s).
    + destruct rest as [|q rest]; simpl in *; by rewrite <- IH.
Qed.

Lemma split_no_sep sep s : Forall (λ seg, sep ∉ seg) (split sep s).
Proof.
  induction s as [|c s IH]; simpl.
  - constructor; [|done]. by intros ?%elem_of_nil.
  - destruct (N.eqb_spec c sep) as [->|Hne].
    + constructor; [|done]. by intros ?%elem_of_nil.
    + destruct (split sep s) as [|seg rest].
      * constructor; [|done].
        intros [?|?%elem_of_nil]%elem_of_cons; congruence.
      * inversion IH; subst. constructor; [|done].
        intros [?|?]%elem_of_cons; [congruence|done].
Qed.

Lemma split_is_segments sep s : is_segments sep s (split sep s).
Proof.
  split; [apply split_nonempty|].
  split; [apply join_split | apply split_no_sep].
Qed.

Lemma trimStart_spec s :
  ∃ l, s = l ++ trimStart s ∧ all_whitespace l
       ∧ ∀ c, head (trimStart s) = Some c → is_whitespace c = false.
Proof.
  induction s as [|c s (l & Hl & Hws & Hhd)]; simpl.
  - exists []. split; [done|]. split; [constructor|]. by intros c [=].
  - destruct (is_whitespace c) eqn:Hc.
    + exists (c :: l). split; [simpl; by f_equal|].
      split; [by constructor|done].
    + exists []. split; [done|]. split; [constructor|].
      intros c' [= <-]. done.
Qed.

Lemma trimEnd_spec s :
  ∃ r, s = trimEnd s ++ r ∧ all_whitespace r
       ∧ ∀ c, last (trimEnd s) = Some c → is_whitespace c = false.
Proof.
  unfold trimEnd.
  destruct (trimStart_spec (reverse s)) as (l & Hl & Hws & Hhd).
  exists (reverse l). split; [|split].
  - rewrite <- reverse_app, <- Hl. by rewrite reverse_involutive.
  - by apply Forall_reverse.
  - intros c Hc. apply Hhd. by rewrite <- last_reverse.
Qed.

(** Trimming the end does not disturb a non-whitespace first code unit. *)
Lemma head_trimEnd s c :
  head (trimEnd s) = Some c → head s = Some c.
Proof.
  destruct (trimEnd_spec s) as (r & Hs & _ & _).
  intros H. rewrite Hs. by destruct (trimEnd s).
Qed.

Lemma trim_is_trimmed s : is_trimmed s (trim s).
Proof.
  unfold trim.
  destruct (trimStart_spec s) as (l & Hl & Hwl & Hhd).
  destruct (trimEnd_spec (trimStart s)) as (r & Hr & Hwr & Hlst).
  exists l, r. split; [by rewrite <- Hr|].
  split; [done|]. split; [done|]. split; [|done].
  intros c Hc. apply Hhd. by apply head_trimEnd.
Qed.

Lemma truthy_spec s : truthy s = true ↔ s ≠ [].
Proof. by destruct s. Qed.

(** The two descriptions pin the functions down: a string has one list of
    segments and one trimmed form. *)

Lemma split_without_sep sep p : sep ∉ p → split sep p = [p].
Proof.
  induction p as [|c p IH]; [done|].
  intros Hn. simpl.
  destruct (N.eqb_spec c sep) as [->|Hne].
  - exfalso. apply Hn. by left.
  - rewrite IH; [done|]. intros ?. apply Hn. by right.
Qed.

Lemma split_app_sep sep p rest :
  sep ∉ p → split sep (p ++ sep :: rest) = p :: split sep rest.
Proof.
  induction p as [|c p IH]; intros Hn; simpl.
  - by rewrite N.eqb_refl.
  - destruct (N.eqb_spec c sep) as [->|Hne].
    + exfalso. apply Hn. by left.
    + rewrite IH; [done|]. intros ?. apply Hn. by right.
Qed.

Lemma split_join sep p rest :
  Forall (λ seg, sep ∉ seg) (p :: rest) →
  split sep (join sep (p :: rest)) = p :: rest.
Proof.
  revert p. induction rest as [|q rest IH]; intros p Hall.
  - simpl. apply split_without_sep. by inversion Hall.
  - inversion Hall; subst.
    rewrite join_cons, split_app_sep by done. f_equal. by apply IH.
Qed.

Lemma is_segments_unique sep s segs :
  is_segments sep s segs → segs = split sep s.
Proof.
  intros (Hne & <- & Hall).
  destruct segs as [|p rest]; [done|].
  symmetry. by apply split_join.
Qed.

Lemma trimStart_whitespace l x :
  all_whitespace l → trimStart (l ++ x) = trimStart x.
Proof.
  induction 1 as [|c l Hc _ IH]; [done|]. simpl. by rewrite Hc.
Qed.

Lemma trimStart_all_whitespace l : all_whitespace l → trimStart l = [].
Proof.
  intros H. rewrite <- (app_nil_r l). by rewrite trimStart_whitespace.
Qed.

Lemma trimStart_fixed x :
  (∀ c, head x = Some c → is_whitespace c = false) → trimStart x = x.
Proof.
  destruct x as [|c x]; [done|]. intros H. simpl. by rewrite (H c).
Qed.

Lemma trimEnd_whitespace x r :
  all_whitespace r → trimEnd (x ++ r) = trimEnd x.
Proof.
  intros H. unfold trimEnd. rewrite reverse_app.
  rewrite trimStart_whitespace; [done|]. by apply Forall_reverse.
Qed.

Lemma trimEnd_fixed x :
  (∀ c, last x = Some c → is_whitespace c = false) → trimEnd x = x.
Proof.
  intros H. unfold trimEnd. rewrite trimStart_fixed.
  - apply reverse_involutive.
  - intros c. rewrite head_reverse. apply H.
Qed.

Lemma is_trimmed_unique s t : is_trimmed s t → t = trim s.
Proof.
  intros (l & r & -> & Hl & Hr & Hhd & Hlst).
  unfold trim. rewrite trimStart_whitespace by done.
  destruct t as [|c t].
  - simpl. rewrite trimStart_all_whitespace by done. done.
  - rewrite trimStart_fixed.
    + rewrite trimEnd_whitespace by done. symmetry. by apply trimEnd_fixed.
    + intros c' [= <-]. by apply Hhd.
Qed.

(** [filter(tag => tag)] keeps exactly the non-empty strings. *)
Lemma filter_truthy (l : list jsstring) :
  List.filter truthy l = filter (λ t, t ≠ []) l.
Proof.
  induction l as [|t l IH]; [done|].
  destruct t as [|c t]; simpl.
  - by rewrite filter_cons_False by (intros ?; done).
  - by rewrite filter_cons_True, IH by done.
Qed.

Lemma map_trim_trimmed (segs : list jsstring) :
  Forall2 is_trimmed segs (map trim segs).
Proof.
  induction segs; constructor; [apply trim_is_trimmed | done].
Qed.

Lemma is_trimmed_clean s t : is_trimmed s t → no_outer_whitespace t.
Proof. by intros (l & r & _ & _ & _ & H). Qed.

(** What [parse_tags] returns, in the document's words. *)
Lemma parse_tags_spec (raw : jsstring) :
  ∃ segs trimmed,
    is_segments comma raw segs
    ∧ Forall2 is_trimmed segs trimmed
    ∧ parse_tags raw = filter (λ t, t ≠ []) trimmed
    ∧ Forall (λ t, t ≠ [] ∧ no_outer_whitespace t) (parse_tags raw).
Proof.
  exists (split comma raw), (map trim (split comma raw)).
  split; [apply split_is_segments|].
  split; [apply map_trim_trimmed|].
  split; [apply filter_truthy|].
  unfold parse_tags. rewrite filter_truthy.
  apply Forall_forall. intros t [Hne Hin]%list_elem_of_filter.
  split; [done|].
  apply list_elem_of_fmap in Hin as (seg & -> & _).
  eapply is_trimmed_clean, trim_is_trimmed.
Qed.

(* ===================================================================== *)
(** ** Session store *)
(* ===================================================================== *)

(** [logout] empties the slot, the header and both cells, whatever the
    session was. *)
Lemma logout_clears (srv : Server) (w : World) :
  let w' := (logout srv w).1 in
  (logout srv w).2 = inl ()
  ∧ user (auth w') = None ∧ token (auth w') = None
  ∧ persisted_token w' = None ∧ authority_header w' = None
  ∧ loading (auth w') = loading (auth w)
  ∧ sent (browser w') = sent (browser w).
Proof.
  run_code logout.
  repeat split; apply lookup_delete_eq.
Qed.

(** When the token exchange itself is rejected, [login] reports it and
    touches neither the session cells, the slot nor the header. *)
Lemma login_rejected_unchanged
    (srv : Server) (w : World) (u p : jsstring) (e : AxiosError) :
  srv (length (sent (browser w)))
      {| req := PostLogin u p; authorization := authority_header w |} = inr e →
  let w' := (login u p srv w).1 in
  (login u p srv w).2
  = inl {| success := false;
           error := Some (or_else (error_detail e)
                            (lit "Login failed. Please check your credentials.")) |}
  ∧ auth w' = auth w
  ∧ localStorage (browser w') = localStorage (browser w)
  ∧ headers_common (browser w') = headers_common (browser w).
Proof.
  intros Hsrv. run_code login. rewrite Hsrv. cbn. done.
Qed.

(** When the token exchange succeeds and the profile fetch after it is
    rejected, [login] reports an error all the same, but by then the token
    has been stored, put in the [token] cell and attached as a header, and
    nothing takes it back. *)
Lemma login_profile_rejected_keeps_token
    (srv : Server) (w : World) (u p t : jsstring) (e : AxiosError) :
  srv (length (sent (browser w)))
      {| req := PostLogin u p; authorization := authority_header w |} = inl t →
  srv (S (length (sent (browser w))))
      {| req := GetProfile; authorization := Some (bearer t) |} = inr e →
  let w' := (login u p srv w).1 in
  (login u p srv w).2
  = inl {| success := false;
           error := Some (or_else (error_detail e)
                            (lit "Login failed. Please check your credentials.")) |}
  ∧ persisted_token w' = Some t
  ∧ authority_header w' = Some (bearer t)
  ∧ token (auth w') = Some t
  ∧ user (auth w') = user (auth w).
Proof.
  intros Htok Hprof. run_code login. rewrite Htok. cbn.
  rewrite length_app, Nat.add_1_r, lookup_insert_eq. cbn.
  rewrite Hprof. cbn.
  by rewrite !lookup_insert_eq.
Qed.

(** C3, evaluated where it fails. From a settled anonymous session with
    nothing stored, the token exchange succeeds with ["tok"] and the profile
    fetch is answered 500: [login] returns its structured error, yet the
    token stays in [localStorage], in the [token] cell and on the
    Authorization header, and the session is [Invalid], not [Anonymous]. *)
Theorem login_profile_failure_keeps_token :
  let r := login (lit "alice") (lit "pw") (srv_token_then_500 (lit "tok"))
             anonymous_world in
  r.2 = inl {| success := false;
               error := Some (JsStr (lit "Login failed. Please check your credentials.")) |}
  ∧ status (auth anonymous_world) = Anonymous
  ∧ persisted_token anonymous_world = None
  ∧ authority_header anonymous_world = None
  ∧ persisted_token r.1 = Some (lit "tok")
  ∧ authority_header r.1 = Some (bearer (lit "tok"))
  ∧ token (auth r.1) = Some (lit "tok")
  ∧ user (auth r.1) = None
  ∧ status (auth r.1) = Invalid.
Proof. vm_compute. repeat split. Qed.

(** The sibling path: [initializeAuth] hits the same failing profile fetch
    with a stored token and does clean up. *)
Lemma initializeAuth_failure_cleans_up
    (srv : Server) (w : World) (t : jsstring) (e : AxiosError) :
  persisted_token w = Some t → truthy t = true →
  srv (length (sent (browser w)))
      {| req := GetProfile; authorization := Some (bearer t) |} = inr e →
  let w' := (initializeAuth srv w).1 in
  user (auth w') = None ∧ token (auth w') = None
  ∧ persisted_token w' = None ∧ authority_header w' = None
  ∧ loading (auth w') = false.
Proof.
  intros Hst Ht Hsrv. run_code initializeAuth.
  rewrite Hst, Ht. cbn. rewrite lookup_insert_eq, Hsrv. cbn.
  repeat split; apply lookup_delete_eq.
Qed.

(** C4. Whenever [refreshProfile] runs with a token and its profile fetch is
    rejected, it returns normally having emptied the [user] and [token]
    cells, the persisted slot and the Authorization header; once
    [initializeAuth] had settled, that session is [Anonymous]. Listing
    either collection right after sends nothing and shows no item. *)
Theorem refreshProfile_failure_logs_out {engine : Builtins}
    (srv : Server) (w : World) (e : AxiosError) (isW : bool) :
  truthy_opt (token (auth w)) = true →
  srv (length (sent (browser w)))
      {| req := GetProfile; authorization := authority_header w |} = inr e →
  let w1 := (refreshProfile srv w).1 in
  let w2 := (list_collection isW srv w1).1 in
  (refreshProfile srv w).2 = inl ()
  ∧ user (auth w1) = None ∧ token (auth w1) = None
  ∧ persisted_token w1 = None
  ∧ authority_header w1 = None
  ∧ (loading (auth w) = false → status (auth w1) = Anonymous)
  ∧ sent_since w1 w2 = []
  ∧ ∃ v, (list_collection isW srv w1).2 = inl v ∧ items_shown v = [].
Proof.
  intros Htok Hsrv.
  unfold list_collection. run_code @list_collection_with.
  run_code Collection_effect.
  run_code refreshProfile. run_code logout.
  rewrite Htok. cbn. rewrite Hsrv. cbn.
  rewrite drop_all.
  repeat split; try apply lookup_delete_eq.
  - by intros ->.
  - by eexists.
Qed.

Lemma refreshProfile_failure_logs_out_witness :
  let w := signed_in (lit "tok") alice in
  let w1 := (refreshProfile srv_down w).1 in
  let w2 := (list_collection (engine:=ascii_engine) false srv_down w1).1 in
  (refreshProfile srv_down w).2 = inl ()
  ∧ user (auth w1) = None ∧ token (auth w1) = None
  ∧ persisted_token w1 = None
  ∧ authority_header w1 = None
  ∧ (loading (auth w) = false → status (auth w1) = Anonymous)
  ∧ sent_since w1 w2 = []
  ∧ ∃ v, (list_collection (engine:=ascii_engine) false srv_down w1).2 = inl v
         ∧ items_shown v = [].
Proof.
  apply (refreshProfile_failure_logs_out (engine:=ascii_engine) srv_down
           (signed_in (lit "tok") alice) network_failure false);
    reflexivity.
Defined.

(** C9. Take any session and any server; run [login] (whatever comes of
    it), then [logout], reload the page and run [initializeAuth]. The
    session settles [Anonymous] with no profile, no token cell, nothing
    persisted and no Authorization header, and initialisation sent no
    request. *)
Theorem login_logout_initialize_anonymous
    (srv : Server) (w : World) (u p : jsstring) :
  let w1 := (login u p srv w).1 in
  let w2 := (logout srv w1).1 in
  let w3 := (initializeAuth srv (reload w2)).1 in
  (initializeAuth srv (reload w2)).2 = inl ()
  ∧ status (auth w3) = Anonymous
  ∧ user (auth w3) = None ∧ token (auth w3) = None
  ∧ persisted_token w3 = None
  ∧ authority_header w3 = None
  ∧ sent (browser w3) = sent (browser w2).
Proof.
  intros w1 w2 w3.
  destruct (logout_clears srv w1) as (_ & _ & _ & Hslot & _ & _ & _).
  fold w2 in Hslot.
  assert (initializeAuth srv (reload w2)
          = (with_auth (λ a, {| user := user a; token := token a; loading := false |})
               (reload w2), inl ())) as Hinit.
  { unfold persisted_token in Hslot.
    unfold initializeAuth, localStorage_getItem, setLoading.
    unfold_m. cbn. by rewrite Hslot. }
  subst w3. rewrite Hinit. cbn.
  repeat split; try done.
Qed.

(* ===================================================================== *)
(** ** Collection manager *)
(* ===================================================================== *)

Lemma not_authenticated_no_user (a : AuthState) :
  status a ≠ Authenticated ↔ user a = None.
Proof.
  unfold status. destruct (user a), (loading a), (token a); split; congruence.
Qed.

(** C6. With a session that is not [Authenticated], listing either
    collection sends no request and shows the sign-in prompt, hence no item;
    nothing is thrown, logged or alerted. *)
Theorem list_unauthenticated_is_empty {engine : Builtins}
    (srv : Server) (w : World) (isW : bool) :
  status (auth w) ≠ Authenticated →
  let r := list_collection isW srv w in
  r.2 = inl LoginPromptView
  ∧ items_shown LoginPromptView = []
  ∧ sent_since w r.1 = []
  ∧ console (browser r.1) = console (browser w)
  ∧ alerts (browser r.1) = alerts (browser w).
Proof.
  intros Hu%not_authenticated_no_user.
  unfold list_collection. run_code @list_collection_with.
  run_code Collection_effect.
  rewrite Hu. cbn. unfold Collection_render. cbn. rewrite Hu, drop_all. done.
Qed.

Lemma list_unauthenticated_is_empty_witness :
  let r := list_collection (engine:=ascii_engine) true srv_ok anonymous_world in
  r.2 = inl LoginPromptView
  ∧ items_shown LoginPromptView = []
  ∧ sent_since anonymous_world r.1 = []
  ∧ console (browser r.1) = console (browser anonymous_world)
  ∧ alerts (browser r.1) = alerts (browser anonymous_world).
Proof.
  apply (list_unauthenticated_is_empty (engine:=ascii_engine) srv_ok anonymous_world true).
  vm_compute. discriminate.
Defined.

(** With a profile present the same operation does send
    [GET /collection] for the list asked for. *)
Lemma list_authenticated_fetches {engine : Builtins}
    (srv : Server) (w : World) (isW : bool) (p : Profile) :
  user (auth w) = Some p →
  sent_since w (list_collection isW srv w).1
  = [{| req := GetCollection isW; authorization := authority_header w |}].
Proof.
  intros Hu. unfold list_collection. run_code @list_collection_with.
  run_code Collection_effect.
  rewrite Hu. run_code fetchCollection.
  destruct (srv _ _); cbn; by rewrite drop_app_length.
Qed.

(** *** add *)

(** Whatever the authority answers, a signed-in add sends exactly one
    request: the POST built from the modal's fields. *)
Lemma add_sends_one_post
    (srv : Server) (w : World) (g : CatalogEntry) (p : Profile) :
  user (auth w) = Some p →
  sent_since w (add_to_collection g srv w).1
  = [{| req := PostCollection (add_body g (modal w));
        authorization := authority_header w |}].
Proof.
  intros Hu. unfold add_to_collection, App_onClose, App_handleAddToCollection,
    fetchCounts, add_body.
  run_code handleAddToCollection. rewrite Hu. cbn.
  destruct (srv _ _); cbn; by rewrite drop_app_length.
Qed.

(** C5, amended. When the authority rejects the POST, for whatever reason,
    a signed-in add logs the error, shows the one fixed message, runs
    neither [onAddToCollection] nor [onClose], resets [adding] and returns
    normally; two rejections with different errors leave the same
    [caller_view]. *)
Theorem add_rejection_is_one_message
    (srv srv' : Server) (w : World) (g : CatalogEntry) (p : Profile)
    (e e' : AxiosError) :
  user (auth w) = Some p →
  let post := {| req := PostCollection (add_body g (modal w));
                 authorization := authority_header w |} in
  srv (length (sent (browser w))) post = inr e →
  srv' (length (sent (browser w))) post = inr e' →
  let r := add_to_collection g srv w in
  r.2 = inl ()
  ∧ alerts (browser r.1)
    = alerts (browser w) ++ [lit "This game is already in your collection!"]
  ∧ console (browser r.1)
    = console (browser w) ++ [(lit "Error adding to collection:", e)]
  ∧ adding (modal r.1) = false
  ∧ app r.1 = app w ∧ auth r.1 = auth w ∧ coll r.1 = coll w
  ∧ caller_view r = caller_view (add_to_collection g srv' w).
Proof.
  intros Hu post Hsrv Hsrv'. subst post.
  unfold caller_view, add_to_collection, App_onClose,
    App_handleAddToCollection, fetchCounts, add_body in *.
  run_code handleAddToCollection. rewrite Hu. cbn.
  rewrite Hsrv, Hsrv'. cbn.
  rewrite !map_app. done.
Qed.

Lemma add_rejection_is_one_message_witness :
  let w := typed_tags "family" (signed_in (lit "tok") alice) in
  let r := add_to_collection catan srv_conflict w in
  r.2 = inl ()
  ∧ alerts (browser r.1)
    = alerts (browser w) ++ [lit "This game is already in your collection!"]
  ∧ console (browser r.1)
    = console (browser w)
      ++ [(lit "Error adding to collection:",
           http_error 409 (Some (lit "Game already in collection")))]
  ∧ adding (modal r.1) = false
  ∧ app r.1 = app w ∧ auth r.1 = auth w ∧ coll r.1 = coll w
  ∧ caller_view r = caller_view (add_to_collection catan srv_down w).
Proof.
  apply (add_rejection_is_one_message srv_conflict srv_down
           (typed_tags "family" (signed_in (lit "tok") alice)) catan alice
           (http_error 409 (Some (lit "Game already in collection")))
           network_failure);
    reflexivity.
Defined.

(** C5 as stated fails. Alice already owns Catan and adds it again to the
    same list: once the authority answers 409 Conflict, once the network is
    down. Both calls return normally, and what the caller can see is the
    same in both; no DuplicateItem condition sets the first apart. *)
Lemma add_duplicate_not_distinguished :
  let w := typed_tags "family" (signed_in (lit "tok") alice) in
  let duplicate := add_to_collection catan srv_conflict w in
  let unreachable := add_to_collection catan srv_down w in
  duplicate.2 = inl () ∧ unreachable.2 = inl ()
  ∧ caller_view duplicate = caller_view unreachable.
Proof. repeat split; vm_compute; reflexivity. Qed.

(** *** remove and the refresh hooks *)

(** A successful remove sends the DELETE and then re-lists; the
    [onRefresh] hook it calls next is [fetchCounts], whose body is empty:
    no profile request follows and the session's profile is untouched. *)
Lemma remove_success_requests
    (srv : Server) (w : World) (isW : bool) (cid : nat) :
  srv (length (sent (browser w)))
      {| req := DeleteCollection cid; authorization := authority_header w |}
  = inl () →
  let r := remove_from_collection isW cid srv w in
  sent_since w r.1
  = [{| req := DeleteCollection cid; authorization := authority_header w |};
     {| req := GetCollection isW; authorization := authority_header w |}]
  ∧ auth r.1 = auth w.
Proof.
  intros Hsrv. unfold remove_from_collection, fetchCounts.
  run_code removeFromCollection. rewrite Hsrv. cbn.
  run_code fetchCollection.
  clear Hsrv. destruct (srv _ _); cbn;
    by rewrite <- app_assoc, drop_app_length.
Qed.

(** A successful add sends nothing after its POST and changes neither the
    profile nor the fetched list. *)
Lemma add_success_requests
    (srv : Server) (w : World) (g : CatalogEntry) (p : Profile)
    (item : CollectionItem) :
  user (auth w) = Some p →
  srv (length (sent (browser w)))
      {| req := PostCollection (add_body g (modal w));
         authorization := authority_header w |} = inl item →
  let r := add_to_collection g srv w in
  r.2 = inl ()
  ∧ sent_since w r.1
    = [{| req := PostCollection (add_body g (modal w));
          authorization := authority_header w |}]
  ∧ auth r.1 = auth w ∧ coll r.1 = coll w
  ∧ selectedGame (app r.1) = None.
Proof.
  intros Hu Hsrv.
  unfold add_to_collection, App_onClose, App_handleAddToCollection,
    fetchCounts, add_body in *.
  run_code handleAddToCollection. rewrite Hu. cbn. rewrite Hsrv. cbn.
  by rewrite drop_app_length.
Qed.

(** C7, evaluated where it fails. Alice is signed in with counts 2 and 1;
    the authority accepts every call and would report count 1 after the
    removal. Removing item 7 sends DELETE then GET /collection and no
    GET /auth/profile; adding Carcassonne sends the POST alone, with no re-list
    and no profile request. In both cases the profile in the session still
    carries the old counts. *)
Theorem mutation_skips_profile_refresh :
  let w := typed_tags "family" (signed_in (lit "tok") alice) in
  let removed := remove_from_collection false 7 srv_ok w in
  let added := add_to_collection carcassonne srv_ok w in
  map req (sent_since w removed.1) = [DeleteCollection 7; GetCollection false]
  ∧ user (auth removed.1) = Some alice
  ∧ map req (sent_since w added.1) = [PostCollection (add_body carcassonne (modal w))]
  ∧ user (auth added.1) = Some alice
  ∧ collection (coll added.1) = collection (coll w)
  ∧ srv_ok 0 {| req := GetProfile; authorization := None |} = inl alice_after
  ∧ alice_after ≠ alice.
Proof.
  vm_compute. repeat split. discriminate.
Qed.

(** *** the tags an add submits *)

Example parse_tags_sample :
  parse_tags (lit " strategy , ,2-player,,  long game  ")
  = [lit "strategy"; lit "2-player"; lit "long game"].
Proof. reflexivity. Qed.

Example parse_tags_blank : parse_tags (lit "") = [] ∧ parse_tags (lit " , ") = [].
Proof. split; reflexivity. Qed.

(** C10. A signed-in add sends one POST whose [custom_tags] are obtained
    from the raw tag line as follows: cut it at the commas, strip the
    whitespace around each segment, drop the segments left empty, keeping
    the order. No submitted tag is empty or has whitespace at either end. *)
Theorem add_submits_clean_tags
    (srv : Server) (w : World) (g : CatalogEntry) (p : Profile) :
  user (auth w) = Some p →
  ∃ body segs trimmed,
    sent_since w (add_to_collection g srv w).1
    = [{| req := PostCollection body; authorization := authority_header w |}]
    ∧ is_segments comma (customTags (modal w)) segs
    ∧ Forall2 is_trimmed segs trimmed
    ∧ body_custom_tags body = filter (λ t, t ≠ []) trimmed
    ∧ Forall (λ t, t ≠ [] ∧ no_outer_whitespace t) (body_custom_tags body).
Proof.
  intros Hu.
  destruct (parse_tags_spec (customTags (modal w)))
    as (segs & trimmed & Hsegs & Htrim & Hfilter & Hclean).
  exists (add_body g (modal w)), segs, trimmed.
  split; [by eapply add_sends_one_post|]. done.
Qed.

Lemma add_submits_clean_tags_witness :
  let w := typed_tags " strategy , ,2-player,,  long game  "
             (signed_in (lit "tok") alice) in
  ∃ body segs trimmed,
    sent_since w (add_to_collection carcassonne srv_ok w).1
    = [{| req := PostCollection body; authorization := authority_header w |}]
    ∧ is_segments comma (customTags (modal w)) segs
    ∧ Forall2 is_trimmed segs trimmed
    ∧ body_custom_tags body = filter (λ t, t ≠ []) trimmed
    ∧ Forall (λ t, t ≠ [] ∧ no_outer_whitespace t) (body_custom_tags body).
Proof.
  apply (add_submits_clean_tags srv_ok
           (typed_tags " strategy , ,2-player,,  long game  "
              (signed_in (lit "tok") alice))
           carcassonne alice).
  reflexivity.
Defined.

(* ===================================================================== *)
(** ** Catalog search *)
(* ===================================================================== *)

Lemma run_app (evs1 evs2 : list Event) (w : SearchWorld) :
  run (evs1 ++ evs2) w = run evs1 w ≫= run evs2.
Proof.
  revert w. induction evs1 as [|ev evs1 IH]; intros w; simpl; [done|].
  destruct (step ev w); [apply IH | done].
Qed.

Lemma filter_none {A} (P : A → Prop) `{∀ x, Decision (P x)} (l : list A) :
  Forall (λ x, ¬ P x) l → filter P l = [].
Proof.
  induction 1 as [|x l Hx _ IH]; [done|]. by rewrite filter_cons_False.
Qed.


(** C2. Called with a query of fewer than two code units, [searchGames]
    empties the result set, sends no request and leaves nothing in flight
    to resume; every other part of the state is as it was. *)
Theorem searchGames_short_query_no_request (q : jsstring) (w : SearchWorld) :
  length q < 2 →
  let w' := searchGames_call q w in
  searchResults (ui w') = []
  ∧ requests w' = requests w
  ∧ in_flight w' = in_flight w
  ∧ w' = setSearchResults [] w.
Proof.
  intros Hq. unfold searchGames_call.
  destruct (Nat.ltb_spec (length q) 2); [done | lia].
Qed.

Lemma searchGames_short_query_no_request_witness :
  let w' := searchGames_call (lit "c") initial_search in
  searchResults (ui w') = []
  ∧ requests w' = requests initial_search
  ∧ in_flight w' = in_flight initial_search
  ∧ w' = setSearchResults [] initial_search.
Proof.
  apply (searchGames_short_query_no_request (lit "c") initial_search).
  vm_compute. lia.
Defined.

(** What a call of [searchGames] leaves alone, whatever the text. *)
Lemma searchGames_call_frame (q : jsstring) (w : SearchWorld) :
  let w' := searchGames_call q w in
  timers w' = timers w ∧ clock w' = clock w
  ∧ next_timer w' = next_timer w
  ∧ query (ui w') = query (ui w)
  ∧ searchTimeout (ui w') = searchTimeout (ui w).
Proof.
  unfold searchGames_call.
  destruct (_ <? _); [done|]. by destruct (well_formed_utf16 q).
Qed.

(** The requests one call sends: one for a sendable text, none
    otherwise. *)
Lemma searchGames_call_requests (q : jsstring) (w : SearchWorld) :
  requests (searchGames_call q w)
  = requests w ++ (if sendable q then [q] else []).
Proof.
  unfold searchGames_call, sendable.
  destruct (Nat.ltb_spec (length q) 2), (Nat.leb_spec 2 (length q));
    try lia; simpl; [by rewrite app_nil_r|].
  destruct (well_formed_utf16 q); simpl; [done | by rewrite app_nil_r].
Qed.


(** Otherwise it sends nothing and empties the result set. *)
Lemma searchGames_call_unsendable (q : jsstring) (w : SearchWorld) :
  sendable q = false →
  let w' := searchGames_call q w in
  requests w' = requests w
  ∧ in_flight w' = in_flight w
  ∧ searchResults (ui w') = [].
Proof.
  unfold sendable, searchGames_call. intros Hno.
  destruct (Nat.ltb_spec (length q) 2) as [Hlt|Hge]; [done|].
  destruct (Nat.leb_spec 2 (length q)); [|lia]. simpl in Hno. by rewrite Hno.
Qed.

(** *** Responses arriving in any order *)







(** The same two requests with the answers arriving in the order issued,
    and with the later one rejected: the result set is the later query's,
    and empty, respectively. *)
Example arrivals_in_order_and_rejected :
  (λ w, searchResults (ui w))
    <$> run (arrival sample_answers <$> [0; 1])
          (issue_all [lit "cat"; lit "catan"] initial_search)
  = Some catan_results
  ∧ (λ w, searchResults (ui w))
      <$> run [Settles 0 (inl cat_results); Settles 1 (inr network_failure)]
            (issue_all [lit "cat"; lit "catan"] initial_search)
    = Some [].
Proof. split; vm_compute; reflexivity. Qed.


(** *** Debounce *)

Lemma one_pending_initial : one_pending initial_search.
Proof. split; [simpl; lia | by left]. Qed.

(** A keystroke leaves exactly one callback pending: the one it has just
    scheduled, 300 ms ahead, for the text just typed. Whatever was pending
    before is gone. *)
Lemma handleInputChange_reschedules (v : jsstring) (w : SearchWorld) :
  one_pending w →
  let w' := handleInputChange v w in
  timers w' = [{| timer_id := next_timer w; due := clock w + 300; timer_arg := v |}]
  ∧ searchTimeout (ui w') = Some (next_timer w)
  ∧ query (ui w') = v
  ∧ clock w' = clock w
  ∧ requests w' = requests w
  ∧ next_timer w' = S (next_timer w).
Proof.
  intros [Hpos [Hnone | (t & Hone & Hid & Htpos)]]; unfold handleInputChange.
  - destruct (searchTimeout (ui w)) as [[|k]|]; simpl; by rewrite Hnone.
  - rewrite Hid. destruct (timer_id t) as [|k] eqn:Ek; [lia|].
    simpl. rewrite Hone, filter_cons_False, filter_nil; [done|].
    intros Hne. by apply Hne.
Qed.

Lemma clearTimeout_one_pending (id : nat) (w : SearchWorld) :
  one_pending w → one_pending (clearTimeout id w).
Proof.
  intros [Hpos Hcase]. split; [done|]. simpl.
  destruct Hcase as [-> | (t & -> & Hid & Htpos)]; [by left|].
  rewrite filter_cons, filter_nil. destruct (decide _); [|by left].
  right. by exists t.
Qed.

Lemma searchGames_call_one_pending (q : jsstring) (w : SearchWorld) :
  one_pending w → one_pending (searchGames_call q w).
Proof.
  destruct (searchGames_call_frame q w) as (Ht & _ & Hn & _ & Hst).
  unfold one_pending. by rewrite Ht, Hn, Hst.
Qed.

Lemma step_one_pending (ev : Event) (w w' : SearchWorld) :
  one_pending w → step ev w = Some w' → one_pending w'.
Proof.
  intros Hinv Hstep. destruct ev as [v|ms|id|f r]; simpl in Hstep.
  - injection Hstep as <-.
    destruct (handleInputChange_reschedules v w Hinv)
      as (Ht & Hst & _ & _ & _ & Hnext).
    destruct Hinv as [Hpos _].
    split; [lia|]. right. eexists. split; [done|]. by split.
  - by injection Hstep as <-.
  - destruct (find_timer id w) as [t|]; [|done].
    destruct (due t <=? clock w); [|done]. injection Hstep as <-.
    by apply searchGames_call_one_pending, clearTimeout_one_pending.
  - destruct (decide _); [|done]. injection Hstep as <-.
    by destruct r.
Qed.

Lemma run_one_pending (evs : list Event) (w w' : SearchWorld) :
  one_pending w → run evs w = Some w' → one_pending w'.
Proof.
  revert w. induction evs as [|ev evs IH]; intros w Hinv Hrun; simpl in Hrun.
  - by injection Hrun as <-.
  - destruct (step ev w) as [w1|] eqn:Hstep; [|done].
    eapply IH; [|done]. by eapply step_one_pending.
Qed.

Lemma elapsed_cons (ev : Event) (evs : list Event) :
  elapsed (ev :: evs)
  = match ev with Elapse ms => ms | _ => 0 end + elapsed evs.
Proof. reflexivity. Qed.

(** While nobody types, the clock only moves by the time that elapses, the
    text is as typed, and no callback is added; while moreover no callback
    runs, the pending ones stay. *)
Lemma quiet_run (evs : list Event) (w w' : SearchWorld) :
  Forall (λ ev, is_typing ev = false) evs →
  run evs w = Some w' →
  clock w' = clock w + elapsed evs
  ∧ query (ui w') = query (ui w)
  ∧ (∀ t, t ∈ timers w' → t ∈ timers w)
  ∧ (Forall (λ ev, is_firing ev = false) evs → timers w' = timers w).
Proof.
  intros Hquiet. revert w.
  induction Hquiet as [|ev evs Hev _ IH]; intros w Hrun; simpl in Hrun.
  - injection Hrun as <-. unfold elapsed. simpl. split; [lia|done].
  - destruct (step ev w) as [w1|] eqn:Hstep; [|done].
    destruct (IH w1 Hrun) as (Hclock & Hquery & Htimers & Hstay).
    rewrite elapsed_cons.
    destruct ev as [v|ms|id|f r]; simpl in Hstep, Hev; [done| | |].
    + injection Hstep as <-. simpl in *. split; [lia|]. split; [done|].
      split; [done|]. intros Hno. apply Hstay. by inversion Hno.
    + destruct (find_timer id w) as [t|]; [|done].
      destruct (due t <=? clock w); [|done]. injection Hstep as <-.
      destruct (searchGames_call_frame (timer_arg t) (clearTimeout id w))
        as (Ht & Hc & _ & Hq & _).
      rewrite Hc, Hq, Ht in *. simpl in *.
      split; [lia|]. split; [done|]. split.
      * intros t0 Ht0. specialize (Htimers t0 Ht0).
        by apply list_elem_of_filter in Htimers as [_ ?].
      * intros Hno. by inversion Hno.
    + destruct (decide _); [|done]. injection Hstep as <-.
      assert (clock (searchGames_resume r (land_flight f w)) = clock w
              ∧ query (ui (searchGames_resume r (land_flight f w))) = query (ui w)
              ∧ timers (searchGames_resume r (land_flight f w)) = timers w)
        as (Hc & Hq & Ht) by (by destruct r).
      rewrite Hc, Hq, Ht in *.
      split; [lia|]. split; [done|]. split; [done|].
      intros Hno. apply Hstay. by inversion Hno.
Qed.

(** C8, amended. Take any history of the component and a keystroke typing
    [v] after it. The keystroke sends nothing and leaves exactly one
    callback pending, due 300 ms later, for [v]: whatever was pending
    before is cancelled. From there on, as long as nobody types: [v] is the
    text in the box; a timer callback can run only if it is that one and at
    least 300 ms have passed, and once 300 ms have passed (and it has not
    run yet) it can run. When it runs it sends exactly one request, for
    [v], if [v] has two code units or more and no unpaired surrogate, and
    none otherwise, emptying the result set; no callback is left pending,
    so it does not run twice. *)
Theorem debounce_sends_latest_text_once
    (history : list Event) (v : jsstring) (wp : SearchWorld) :
  run history initial_search = Some wp →
  let w0 := handleInputChange v wp in
  ∃ id,
    timers w0 = [{| timer_id := id; due := clock w0 + 300; timer_arg := v |}]
    ∧ requests w0 = requests wp
    ∧ ∀ (quiet : list Event) (w : SearchWorld),
        Forall (λ ev, is_typing ev = false) quiet →
        run quiet w0 = Some w →
        query (ui w) = v
        ∧ (∀ id' w', step (TimerFires id') w = Some w' →
             id' = id
             ∧ 300 ≤ elapsed quiet
             ∧ requests w' = requests w ++ (if sendable v then [v] else [])
             ∧ (sendable v = false → searchResults (ui w') = [])
             ∧ timers w' = [])
        ∧ (Forall (λ ev, is_firing ev = false) quiet →
           300 ≤ elapsed quiet →
           is_Some (step (TimerFires id) w)).
Proof.
  intros Hpre w0.
  pose proof (run_one_pending _ _ _ one_pending_initial Hpre) as Hinv.
  destruct (handleInputChange_reschedules v wp Hinv)
    as (Ht0 & _ & Hq0 & Hc0 & Hr0 & _).
  fold w0 in Ht0, Hq0, Hc0, Hr0.
  exists (next_timer wp).
  split; [by rewrite Ht0, Hc0|]. split; [done|].
  intros quiet w Hquiet Hrun.
  destruct (quiet_run _ _ _ Hquiet Hrun) as (Hclock & Hquery & Htimers & Hstay).
  split; [by rewrite Hquery|]. split.
  - intros id' w' Hfire. simpl in Hfire. unfold find_timer in Hfire.
    destruct (List.find _ (timers w)) as [t|] eqn:Hfind; [|done].
    apply find_some in Hfind as [Hin Hid].
    apply Nat.eqb_eq in Hid.
    apply list_elem_of_In, Htimers in Hin.
    rewrite Ht0 in Hin. apply list_elem_of_singleton in Hin. subst t.
    simpl in Hid, Hfire.
    destruct (Nat.leb_spec (clock wp + 300) (clock w)) as [Hdue|]; [|done].
    injection Hfire as <-.
    assert (filter (λ t, timer_id t ≠ id') (timers w) = []) as Hgone.
    { apply filter_none, Forall_forall. intros t Ht Hne.
      apply Htimers in Ht. rewrite Ht0 in Ht.
      apply list_elem_of_singleton in Ht. subst t. by apply Hne. }
    destruct (searchGames_call_frame v (clearTimeout id' w)) as (Htm & _).
    split; [done|]. split; [lia|].
    split; [by rewrite searchGames_call_requests|].
    split; [|by rewrite Htm].
    intros Hno. by destruct (searchGames_call_unsendable v (clearTimeout id' w) Hno)
      as (_ & _ & ?).
  - intros Hno Hlong. specialize (Hstay Hno).
    assert ((clock wp + 300 <=? clock w) = true) as Hle
      by (apply Nat.leb_le; lia).
    unfold step, find_timer. rewrite Hstay, Ht0.
    cbn [List.find timer_id due timer_arg].
    rewrite Nat.eqb_refl. cbn [due timer_arg]. rewrite Hle. by eexists.
Qed.

Lemma debounce_sends_latest_text_once_witness :
  let history := [Typed (lit "c"); Elapse 100; Typed (lit "ca"); Elapse 100] in
  let wp := default initial_search (run history initial_search) in
  let w0 := handleInputChange (lit "cat") wp in
  ∃ id,
    timers w0 = [{| timer_id := id; due := clock w0 + 300; timer_arg := lit "cat" |}]
    ∧ requests w0 = requests wp
    ∧ ∀ (quiet : list Event) (w : SearchWorld),
        Forall (λ ev, is_typing ev = false) quiet →
        run quiet w0 = Some w →
        query (ui w) = lit "cat"
        ∧ (∀ id' w', step (TimerFires id') w = Some w' →
             id' = id
             ∧ 300 ≤ elapsed quiet
             ∧ requests w'
               = requests w ++ (if sendable (lit "cat") then [lit "cat"] else [])
             ∧ (sendable (lit "cat") = false → searchResults (ui w') = [])
             ∧ timers w' = [])
        ∧ (Forall (λ ev, is_firing ev = false) quiet →
           300 ≤ elapsed quiet →
           is_Some (step (TimerFires id) w)).
Proof.
  apply (debounce_sends_latest_text_once
           [Typed (lit "c"); Elapse 100; Typed (lit "ca"); Elapse 100]
           (lit "cat")).
  vm_compute. reflexivity.
Defined.

(** Three keystrokes 100 ms apart, then quiet: one request, for the last
    text; the callbacks of the first two keystrokes can no longer run. *)
Example burst_sends_one_request :
  requests <$> run [Typed (lit "c"); Elapse 100; Typed (lit "ca"); Elapse 100;
                    Typed (lit "cat"); Elapse 300; TimerFires 3] initial_search
  = Some [lit "cat"]
  ∧ run [Typed (lit "c"); Elapse 100; Typed (lit "ca"); Elapse 100;
         Typed (lit "cat"); Elapse 300; TimerFires 1] initial_search = None
  ∧ run [Typed (lit "c"); Elapse 100; Typed (lit "ca"); Elapse 100;
         Typed (lit "cat"); Elapse 299; TimerFires 3] initial_search = None.
Proof. vm_compute. done. Qed.

(** C8 as stated fails. One keystroke types a high surrogate followed by
    "a": two code units, so past the two-character floor. 300 ms later its
    callback runs: [encodeURIComponent] throws, no request is sent, the
    URIError is logged and the result set is empty. A firing has sent no
    request. *)
Lemma unpaired_surrogate_fires_without_request :
  (λ w, (query (ui w), timers w, requests w, in_flight w,
         searchResults (ui w), snd <$> search_console w))
    <$> run [Typed [0xD83C; 0x61]%N; Elapse 300; TimerFires 1] initial_search
  = Some ([0xD83C; 0x61]%N, [], [], [], [], [URIError])
  ∧ length [0xD83C; 0x61]%N = 2.
Proof. split; vm_compute; reflexivity. Qed.

(** A text of one code unit sends nothing either (see C2). *)
Example short_text_sends_nothing :
  (λ w, (query (ui w), timers w, requests w, in_flight w))
    <$> run [Typed (lit "c"); Elapse 300; TimerFires 1] initial_search
  = Some (lit "c", [], [], []).
Proof. vm_compute. reflexivity. Qed.

(* ===================================================================== *)
(** ** More on the session store *)
(* ===================================================================== *)

(** With nothing in the token slot, or the empty string, [initializeAuth]
    sends no request and only clears [loading]: cells, header and slot stay
    as they were, so a stored empty string is not removed. *)
Theorem initializeAuth_nothing_stored (srv : Server) (w : World) :
  truthy_opt (persisted_token w) = false →
  initializeAuth srv w
  = (with_auth (λ a, {| user := user a; token := token a; loading := false |}) w,
     inl ()).
Proof.
  intros Hslot. unfold persisted_token in Hslot.
  unfold initializeAuth, localStorage_getItem, setLoading. unfold_m. cbn.
  destruct (localStorage (browser w) !! "gameshelf_token") as [t|]; [|done].
  simpl in Hslot. by rewrite Hslot.
Qed.

Lemma initializeAuth_nothing_stored_witness :
  initializeAuth srv_ok (page_with_token [])
  = (with_auth (λ a, {| user := user a; token := token a; loading := false |})
       (page_with_token []),
     inl ()).
Proof.
  apply (initializeAuth_nothing_stored srv_ok (page_with_token [])).
  vm_compute. reflexivity.
Defined.

Lemma initializeAuth_accepted
    (srv : Server) (w : World) (t : jsstring) (p : Profile) :
  persisted_token w = Some t → truthy t = true →
  srv (length (sent (browser w)))
      {| req := GetProfile; authorization := Some (bearer t) |} = inl p →
  let r := initializeAuth srv w in
  r.2 = inl ()
  ∧ user (auth r.1) = Some p ∧ token (auth r.1) = Some t
  ∧ persisted_token r.1 = Some t
  ∧ authority_header r.1 = Some (bearer t)
  ∧ status (auth r.1) = Authenticated
  ∧ loading (auth r.1) = false
  ∧ sent_since w r.1
    = [{| req := GetProfile; authorization := Some (bearer t) |}].
Proof.
  intros Hst Ht Hsrv. run_code initializeAuth.
  rewrite Hst, Ht. cbn. rewrite lookup_insert_eq, Hsrv. cbn.
  rewrite drop_app_length, lookup_insert_eq. done.
Qed.

(** With a stored token that the authority accepts, [initializeAuth]
    attaches it, sends exactly one profile request carrying it, and settles
    [Authenticated] with the profile returned; the slot keeps the token. *)
Theorem initializeAuth_restores_session
    (srv : Server) (w : World) (t : jsstring) (p : Profile) :
  persisted_token w = Some t → truthy t = true →
  srv (length (sent (browser w)))
      {| req := GetProfile; authorization := Some (bearer t) |} = inl p →
  let r := initializeAuth srv w in
  r.2 = inl ()
  ∧ user (auth r.1) = Some p ∧ token (auth r.1) = Some t
  ∧ persisted_token r.1 = Some t
  ∧ authority_header r.1 = Some (bearer t)
  ∧ status (auth r.1) = Authenticated
  ∧ loading (auth r.1) = false
  ∧ sent_since w r.1
    = [{| req := GetProfile; authorization := Some (bearer t) |}].
Proof. apply initializeAuth_accepted. Qed.

Lemma initializeAuth_restores_session_witness :
  let w := page_with_token (lit "tok") in
  let r := initializeAuth srv_accounts w in
  r.2 = inl ()
  ∧ user (auth r.1) = Some alice ∧ token (auth r.1) = Some (lit "tok")
  ∧ persisted_token r.1 = Some (lit "tok")
  ∧ authority_header r.1 = Some (bearer (lit "tok"))
  ∧ status (auth r.1) = Authenticated
  ∧ loading (auth r.1) = false
  ∧ sent_since w r.1
    = [{| req := GetProfile; authorization := Some (bearer (lit "tok")) |}].
Proof.
  apply (initializeAuth_restores_session srv_accounts
           (page_with_token (lit "tok")) (lit "tok") alice);
    vm_compute; reflexivity.
Defined.

Lemma initializeAuth_failure_cleans_up_witness :
  let w' := (initializeAuth srv_accounts (page_with_token (lit "old"))).1 in
  user (auth w') = None ∧ token (auth w') = None
  ∧ persisted_token w' = None ∧ authority_header w' = None
  ∧ loading (auth w') = false.
Proof.
  apply (initializeAuth_failure_cleans_up srv_accounts
           (page_with_token (lit "old")) (lit "old")
           (http_error 401 (Some (lit "Could not validate credentials"))));
    vm_compute; reflexivity.
Defined.

(** When both calls succeed, [login] stores the token, attaches it, holds
    the profile and reports success. Two requests leave: the token exchange
    under whatever header was attached before, then the profile fetch under
    the new token. *)
Theorem login_success_signs_in
    (srv : Server) (w : World) (u pw t : jsstring) (p : Profile) :
  srv (length (sent (browser w)))
      {| req := PostLogin u pw; authorization := authority_header w |} = inl t →
  srv (S (length (sent (browser w))))
      {| req := GetProfile; authorization := Some (bearer t) |} = inl p →
  let r := login u pw srv w in
  r.2 = inl {| success := true; error := None |}
  ∧ user (auth r.1) = Some p ∧ token (auth r.1) = Some t
  ∧ persisted_token r.1 = Some t
  ∧ authority_header r.1 = Some (bearer t)
  ∧ status (auth r.1) = Authenticated
  ∧ sent_since w r.1
    = [{| req := PostLogin u pw; authorization := authority_header w |};
       {| req := GetProfile; authorization := Some (bearer t) |}].
Proof.
  intros Htok Hprof. run_code login. rewrite Htok. cbn.
  rewrite length_app, Nat.add_1_r, lookup_insert_eq. cbn.
  rewrite Hprof. cbn.
  rewrite <- app_assoc, drop_app_length, !lookup_insert_eq. done.
Qed.

Lemma login_success_signs_in_witness :
  let r := login (lit "alice") (lit "pw") srv_accounts anonymous_world in
  r.2 = inl {| success := true; error := None |}
  ∧ user (auth r.1) = Some alice ∧ token (auth r.1) = Some (lit "tok")
  ∧ persisted_token r.1 = Some (lit "tok")
  ∧ authority_header r.1 = Some (bearer (lit "tok"))
  ∧ status (auth r.1) = Authenticated
  ∧ sent_since anonymous_world r.1
    = [{| req := PostLogin (lit "alice") (lit "pw");
          authorization := authority_header anonymous_world |};
       {| req := GetProfile; authorization := Some (bearer (lit "tok")) |}].
Proof.
  apply (login_success_signs_in srv_accounts anonymous_world
           (lit "alice") (lit "pw") (lit "tok") alice);
    vm_compute; reflexivity.
Defined.

Lemma login_rejected_unchanged_witness :
  let w' := (login (lit "alice") (lit "oops") srv_accounts anonymous_world).1 in
  (login (lit "alice") (lit "oops") srv_accounts anonymous_world).2
  = inl {| success := false;
           error := Some (or_else
                            (error_detail
                               (http_error 401
                                  (Some (lit "Incorrect username or password"))))
                            (lit "Login failed. Please check your credentials.")) |}
  ∧ auth w' = auth anonymous_world
  ∧ localStorage (browser w') = localStorage (browser anonymous_world)
  ∧ headers_common (browser w') = headers_common (browser anonymous_world).
Proof.
  apply (login_rejected_unchanged srv_accounts anonymous_world
           (lit "alice") (lit "oops")
           (http_error 401 (Some (lit "Incorrect username or password")))).
  vm_compute. reflexivity.
Defined.

(** A session opened by a successful [login] survives a reload: the token
    is found in the slot, attached again and, if the authority still
    accepts it, the session settles [Authenticated] with the profile
    fetched afresh. *)
Theorem session_survives_reload
    (srv : Server) (w : World) (u pw t : jsstring) (p p' : Profile) :
  truthy t = true →
  srv (length (sent (browser w)))
      {| req := PostLogin u pw; authorization := authority_header w |} = inl t →
  srv (S (length (sent (browser w))))
      {| req := GetProfile; authorization := Some (bearer t) |} = inl p →
  srv (S (S (length (sent (browser w)))))
      {| req := GetProfile; authorization := Some (bearer t) |} = inl p' →
  let w1 := (login u pw srv w).1 in
  let w2 := (initializeAuth srv (reload w1)).1 in
  status (auth w2) = Authenticated
  ∧ user (auth w2) = Some p' ∧ token (auth w2) = Some t
  ∧ persisted_token w2 = Some t
  ∧ authority_header w2 = Some (bearer t).
Proof.
  intros Ht Htok Hprof Hagain w1 w2.
  assert (persisted_token (reload w1) = Some t
          ∧ length (sent (browser (reload w1))) = S (S (length (sent (browser w)))))
    as [Hslot Hlen].
  { subst w1. run_code login. rewrite Htok. cbn.
    rewrite length_app, Nat.add_1_r, lookup_insert_eq. cbn.
    rewrite Hprof. cbn.
    rewrite lookup_insert_eq, !length_app. simpl. split; [done | lia]. }
  rewrite <- Hlen in Hagain.
  destruct (initializeAuth_accepted srv (reload w1) t p' Hslot Ht Hagain)
    as (_ & Hu & Htk & Hp & Hh & Hs & _).
  done.
Qed.

Lemma session_survives_reload_witness :
  let w1 := (login (lit "alice") (lit "pw") srv_accounts anonymous_world).1 in
  let w2 := (initializeAuth srv_accounts (reload w1)).1 in
  status (auth w2) = Authenticated
  ∧ user (auth w2) = Some alice ∧ token (auth w2) = Some (lit "tok")
  ∧ persisted_token w2 = Some (lit "tok")
  ∧ authority_header w2 = Some (bearer (lit "tok")).
Proof.
  apply (session_survives_reload srv_accounts anonymous_world
           (lit "alice") (lit "pw") (lit "tok") alice alice);
    vm_compute; reflexivity.
Defined.

(** When the authority refuses a registration, [register] hands back the
    [detail] of the answer as it came, whatever its type, provided it is
    truthy, and a fixed message when it is missing or falsy; what it hands
    back is therefore always truthy. Cells, slot and header stay as they
    were. *)
Theorem register_rejected_reports_reason
    (srv : Server) (w : World) (u em pw : jsstring) (e : AxiosError) :
  srv (length (sent (browser w)))
      {| req := PostRegister u em pw; authorization := authority_header w |}
  = inr e →
  let r := register u em pw srv w in
  (∃ v, r.2 = inl {| success := false; error := Some v |}
        ∧ ToBoolean v = true
        ∧ (ToBoolean (error_detail e) = true → v = error_detail e)
        ∧ (ToBoolean (error_detail e) = false →
           v = JsStr (lit "Registration failed. Please try again.")))
  ∧ auth r.1 = auth w
  ∧ localStorage (browser r.1) = localStorage (browser w)
  ∧ headers_common (browser r.1) = headers_common (browser w).
Proof.
  intros Hsrv. run_code register. rewrite Hsrv. cbn.
  split; [|done]. eexists. split; [done|].
  unfold or_else. destruct (ToBoolean (error_detail e)) eqn:Hd; done.
Qed.

Lemma register_rejected_reports_reason_witness :
  let e := http_error 400 (Some (lit "Username already registered")) in
  let r := register (lit "alice") (lit "a@example.org") (lit "secret")
             srv_accounts anonymous_world in
  (∃ v, r.2 = inl {| success := false; error := Some v |}
        ∧ ToBoolean v = true
        ∧ (ToBoolean (error_detail e) = true → v = error_detail e)
        ∧ (ToBoolean (error_detail e) = false →
           v = JsStr (lit "Registration failed. Please try again.")))
  ∧ auth r.1 = auth anonymous_world
  ∧ localStorage (browser r.1) = localStorage (browser anonymous_world)
  ∧ headers_common (browser r.1) = headers_common (browser anonymous_world).
Proof.
  apply (register_rejected_reports_reason srv_accounts anonymous_world
           (lit "alice") (lit "a@example.org") (lit "secret")
           (http_error 400 (Some (lit "Username already registered")))).
  vm_compute. reflexivity.
Defined.

(** A validation failure whose [detail] is an array, not a string: the
    array itself comes back as [error]. With no [detail] at all the
    fallback does. *)
Example register_rejected_samples :
  (register (lit "al") (lit "nonsense") (lit "pw") srv_validation anonymous_world).2
  = inl {| success := false; error := Some (JsOther true 422) |}
  ∧ (register (lit "al") (lit "a@example.org") (lit "pw") srv_down anonymous_world).2
    = inl {| success := false;
             error := Some (JsStr (lit "Registration failed. Please try again.")) |}.
Proof. split; vm_compute; reflexivity. Qed.

(** [logout] sends nothing, and a second [logout] changes nothing more. *)
Theorem logout_idempotent (srv : Server) (w : World) :
  logout srv (logout srv w).1 = logout srv w
  ∧ sent (browser (logout srv w).1) = sent (browser w).
Proof.
  run_code logout. split; [|done].
  destruct w as [[st hd sn cs al] [us tk ld] md cl ap].
  cbv [with_browser with_auth browser auth modal coll app localStorage
       headers_common sent console alerts user token loading].
  by rewrite !delete_delete_eq.
Qed.

(** With no token in the cell (or an empty one) [refreshProfile] does
    nothing at all. *)
Theorem refreshProfile_without_token (srv : Server) (w : World) :
  truthy_opt (token (auth w)) = false →
  refreshProfile srv w = (w, inl ()).
Proof. intros Htok. run_code refreshProfile. by rewrite Htok. Qed.

Lemma refreshProfile_without_token_witness :
  refreshProfile srv_ok anonymous_world = (anonymous_world, inl ()).
Proof.
  apply (refreshProfile_without_token srv_ok anonymous_world). reflexivity.
Defined.

(** When its fetch succeeds, [refreshProfile] replaces the profile held and
    nothing else: one request leaves, under the header currently attached;
    token, slot and header stay. *)
Theorem refreshProfile_success_replaces_profile
    (srv : Server) (w : World) (p : Profile) :
  truthy_opt (token (auth w)) = true →
  srv (length (sent (browser w)))
      {| req := GetProfile; authorization := authority_header w |} = inl p →
  let r := refreshProfile srv w in
  r.2 = inl ()
  ∧ user (auth r.1) = Some p
  ∧ token (auth r.1) = token (auth w)
  ∧ loading (auth r.1) = loading (auth w)
  ∧ localStorage (browser r.1) = localStorage (browser w)
  ∧ headers_common (browser r.1) = headers_common (browser w)
  ∧ sent_since w r.1
    = [{| req := GetProfile; authorization := authority_header w |}].
Proof.
  intros Htok Hsrv. run_code refreshProfile. rewrite Htok. cbn.
  rewrite Hsrv. cbn. by rewrite drop_app_length.
Qed.

Lemma refreshProfile_success_replaces_profile_witness :
  let w := signed_in (lit "tok") alice in
  let r := refreshProfile srv_ok w in
  r.2 = inl ()
  ∧ user (auth r.1) = Some alice_after
  ∧ token (auth r.1) = token (auth w)
  ∧ loading (auth r.1) = loading (auth w)
  ∧ localStorage (browser r.1) = localStorage (browser w)
  ∧ headers_common (browser r.1) = headers_common (browser w)
  ∧ sent_since w r.1
    = [{| req := GetProfile; authorization := authority_header w |}].
Proof.
  apply (refreshProfile_success_replaces_profile srv_ok
           (signed_in (lit "tok") alice) alice_after);
    vm_compute; reflexivity.
Defined.

(** *** Lockstep of cell, slot and header *)

Lemma carries_bearer_post_login u p h :
  carries_bearer {| req := PostLogin u p; authorization := h |}.
Proof. by intros ?. Qed.

Lemma carries_bearer_post_register u e p h :
  carries_bearer {| req := PostRegister u e p; authorization := h |}.
Proof. by intros ?. Qed.

Lemma carries_bearer_profile t :
  carries_bearer {| req := GetProfile; authorization := Some t |}.
Proof. by intros _. Qed.

Lemma logout_keeps_lockstep : keeps_lockstep logout.
Proof.
  intros srv w _. run_code logout. unfold in_lockstep. unfold_view. cbn.
  split; [done|]. split.
  - rewrite ?lookup_delete_eq. split; [done|]. split; [done|]. by intros [? ?].
  - exists []. by rewrite app_nil_r.
Qed.

Lemma login_keeps_lockstep u p : keeps_lockstep (_ ← login u p; mret ()).
Proof.
  intros srv w (Hslot & Hhdr & Huser).
  unfold in_lockstep in *. run_code login.
  destruct (srv _ _) as [t|e] eqn:Htok; cbn.
  - rewrite lookup_insert_eq.
    clear Htok.
    destruct (srv _ _) as [prof|e] eqn:Hprof; cbn;
      rewrite ?lookup_insert_eq;
      (split; [done|]); (split; [by repeat split|]);
      eexists; rewrite <- app_assoc; (split; [done|]);
      repeat constructor;
      auto using carries_bearer_post_login, carries_bearer_profile.
  - split; [done|]. split; [done|].
    eexists. split; [done|].
    repeat constructor. apply carries_bearer_post_login.
Qed.

Lemma register_keeps_lockstep u e p :
  keeps_lockstep (_ ← register u e p; mret ()).
Proof.
  intros srv w (Hslot & Hhdr & Huser).
  unfold in_lockstep in *. run_code register.
  destruct (srv _ _) as [t|err] eqn:Htok; cbn.
  - rewrite lookup_insert_eq.
    clear Htok.
    destruct (srv _ _) as [prof|err] eqn:Hprof; cbn;
      rewrite ?lookup_insert_eq;
      (split; [done|]); (split; [by repeat split|]);
      eexists; rewrite <- app_assoc; (split; [done|]);
      repeat constructor;
      auto using carries_bearer_post_register, carries_bearer_profile.
  - split; [done|]. split; [done|].
    eexists. split; [done|].
    repeat constructor. apply carries_bearer_post_register.
Qed.

Lemma refreshProfile_keeps_lockstep : keeps_lockstep refreshProfile.
Proof.
  intros srv w (Hslot & Hhdr & Huser).
  unfold in_lockstep in *. run_code refreshProfile. run_code logout.
  destruct (token (auth w)) as [t|] eqn:Ht; cbn; rewrite ?Ht.
  2:{ split; [done|]. split; [by repeat split|]. exists []. by rewrite app_nil_r. }
  destruct (truthy t); cbn; rewrite ?Ht.
  2:{ split; [done|]. split; [by repeat split|]. exists []. by rewrite app_nil_r. }
  rewrite Hhdr. cbn.
  destruct (srv _ _) as [prof|e]; cbn; rewrite ?Ht, ?lookup_delete_eq.
  - split; [done|]. split; [by repeat split|].
    eexists. split; [done|]. repeat constructor. apply carries_bearer_profile.
  - split; [done|]. split; [split; [done|split; [done|by intros [? ?]]]|].
    eexists. split; [done|]. repeat constructor. apply carries_bearer_profile.
Qed.

Lemma run_op_keeps_lockstep (op : SessionOp) : keeps_lockstep (run_op op).
Proof.
  destruct op; simpl.
  - apply login_keeps_lockstep.
  - apply register_keeps_lockstep.
  - apply logout_keeps_lockstep.
  - apply refreshProfile_keeps_lockstep.
Qed.

Lemma run_ops_keeps_lockstep (ops : list SessionOp) : keeps_lockstep (run_ops ops).
Proof.
  induction ops as [|op ops IH]; intros srv w Hw.
  - split; [done|]. split; [done|]. exists []. by rewrite app_nil_r.
  - destruct (run_op_keeps_lockstep op srv w Hw) as (Hret & Hw1 & new1 & Hs1 & Hn1).
    simpl run_ops. unfold_m.
    destruct (run_op op srv w) as [w1 r1]. simpl in *. subst r1.
    destruct (IH srv w1 Hw1) as (Hret2 & Hw2 & new2 & Hs2 & Hn2).
    split; [done|]. split; [done|].
    exists (new1 ++ new2). rewrite Hs2, Hs1, <- app_assoc.
    split; [done|]. by apply Forall_app.
Qed.

(** After a reload, [initializeAuth] leaves cell, slot and header in
    lockstep, unless the slot held the empty string. *)
Lemma initializeAuth_establishes_lockstep (srv : Server) (w : World) :
  persisted_token w ≠ Some [] →
  let r := initializeAuth srv (reload w) in
  r.2 = inl ()
  ∧ in_lockstep r.1
  ∧ ∃ new, sent (browser r.1) = sent (browser (reload w)) ++ new
           ∧ Forall carries_bearer new.
Proof.
  intros Hne. unfold in_lockstep. unfold persisted_token in Hne.
  run_code initializeAuth.
  destruct (localStorage (browser w) !! "gameshelf_token") as [[|c t]|] eqn:Hst;
    [done| |]; cbn.
  - rewrite lookup_insert_eq.
    destruct (srv _ _) as [prof|e]; cbn.
    + rewrite Hst, lookup_insert_eq.
      split; [done|]. split; [by repeat split|].
      eexists. split; [done|]. repeat constructor. apply carries_bearer_profile.
    + rewrite ?lookup_delete_eq.
      split; [done|]. split; [split; [done|split; [done|by intros [? ?]]]|].
      eexists. split; [done|]. repeat constructor. apply carries_bearer_profile.
  - rewrite Hst, lookup_empty.
    split; [done|]. split; [split; [done|split; [done|by intros [? ?]]]|].
    exists []. by rewrite app_nil_r.
Qed.

(** Over the life of a page: reload, [initializeAuth], then any sequence
    of logins, registrations, logouts and profile refreshes, against any
    server. Provided the slot did not hold the empty string, no call
    throws, the token cell, the persisted slot and the Authorization header
    agree at the end, a profile is held only with a token, and every
    profile request sent went out with an Authorization header. *)
Theorem page_life_keeps_lockstep
    (srv : Server) (w : World) (ops : list SessionOp) :
  persisted_token w ≠ Some [] →
  let r := (initializeAuth;; run_ops ops) srv (reload w) in
  r.2 = inl ()
  ∧ in_lockstep r.1
  ∧ Forall carries_bearer (sent_since (reload w) r.1).
Proof.
  intros Hne.
  destruct (initializeAuth_establishes_lockstep srv w Hne)
    as (Hret & Hw1 & new1 & Hs1 & Hn1).
  unfold_m.
  destruct (initializeAuth srv (reload w)) as [w1 r1]. simpl in *. subst r1.
  destruct (run_ops_keeps_lockstep ops srv w1 Hw1) as (Hret2 & Hw2 & new2 & Hs2 & Hn2).
  split; [done|]. split; [done|].
  unfold sent_since. rewrite Hs2, Hs1, <- app_assoc, drop_app_length.
  by apply Forall_app.
Qed.

Lemma page_life_keeps_lockstep_witness :
  let ops := [OpLogin (lit "alice") (lit "oops"); OpLogin (lit "alice") (lit "pw");
              OpRefreshProfile; OpLogout;
              OpRegister (lit "alice") (lit "a@example.org") (lit "secret")] in
  let r := (initializeAuth;; run_ops ops) srv_accounts
             (reload (page_with_token (lit "old"))) in
  r.2 = inl ()
  ∧ in_lockstep r.1
  ∧ Forall carries_bearer (sent_since (reload (page_with_token (lit "old"))) r.1).
Proof.
  apply (page_life_keeps_lockstep srv_accounts (page_with_token (lit "old"))
           [OpLogin (lit "alice") (lit "oops"); OpLogin (lit "alice") (lit "pw");
            OpRefreshProfile; OpLogout;
            OpRegister (lit "alice") (lit "a@example.org") (lit "secret")]).
  vm_compute. discriminate.
Defined.

(* ===================================================================== *)
(** ** More on the collection manager *)
(* ===================================================================== *)

(** Without a profile in the session an add only shows the sign-in
    message: no request leaves, [adding] is not touched, and no other state
    changes. *)
Theorem add_without_user_only_alerts
    (srv : Server) (w : World) (g : CatalogEntry) :
  user (auth w) = None →
  let r := add_to_collection g srv w in
  r.2 = inl ()
  ∧ alerts (browser r.1)
    = alerts (browser w) ++ [lit "Please sign in to add games to your collection."]
  ∧ sent_since w r.1 = []
  ∧ console (browser r.1) = console (browser w)
  ∧ auth r.1 = auth w ∧ modal r.1 = modal w
  ∧ coll r.1 = coll w ∧ app r.1 = app w.
Proof.
  intros Hu. unfold add_to_collection. run_code handleAddToCollection.
  rewrite Hu. cbn. by rewrite drop_all.
Qed.

Lemma add_without_user_only_alerts_witness :
  let r := add_to_collection catan srv_ok anonymous_world in
  r.2 = inl ()
  ∧ alerts (browser r.1)
    = alerts (browser anonymous_world)
      ++ [lit "Please sign in to add games to your collection."]
  ∧ sent_since anonymous_world r.1 = []
  ∧ console (browser r.1) = console (browser anonymous_world)
  ∧ auth r.1 = auth anonymous_world ∧ modal r.1 = modal anonymous_world
  ∧ coll r.1 = coll anonymous_world ∧ app r.1 = app anonymous_world.
Proof.
  apply (add_without_user_only_alerts srv_ok anonymous_world catan).
  reflexivity.
Defined.

(** A signed-in add never throws and always ends with [adding] off,
    whatever the authority answers. The modal is closed exactly when the
    POST was accepted, the message is shown exactly when it was not; the
    notes, tag line and list flag typed in, the session and the list
    fetched earlier are left alone either way. *)
Theorem add_signed_in_settles
    (srv : Server) (w : World) (g : CatalogEntry) (p : Profile) :
  user (auth w) = Some p →
  let answer := srv (length (sent (browser w)))
                  {| req := PostCollection (add_body g (modal w));
                     authorization := authority_header w |} in
  let r := add_to_collection g srv w in
  r.2 = inl ()
  ∧ adding (modal r.1) = false
  ∧ userNotes (modal r.1) = userNotes (modal w)
  ∧ customTags (modal r.1) = customTags (modal w)
  ∧ isWishlist (modal r.1) = isWishlist (modal w)
  ∧ auth r.1 = auth w ∧ coll r.1 = coll w
  ∧ selectedGame (app r.1)
    = (if answer is inl _ then None else selectedGame (app w))
  ∧ alerts (browser r.1)
    = alerts (browser w)
      ++ (if answer is inl _ then []
          else [lit "This game is already in your collection!"]).
Proof.
  intros Hu answer. subst answer.
  unfold add_to_collection, App_onClose, App_handleAddToCollection,
    fetchCounts, add_body in *.
  run_code handleAddToCollection. rewrite Hu. cbn.
  destruct (srv _ _); cbn; by rewrite ?app_nil_r.
Qed.

Lemma add_signed_in_settles_witness :
  let w := typed_tags "family" (signed_in (lit "tok") alice) in
  let answer := srv_ok (length (sent (browser w)))
                  {| req := PostCollection (add_body carcassonne (modal w));
                     authorization := authority_header w |} in
  let r := add_to_collection carcassonne srv_ok w in
  r.2 = inl ()
  ∧ adding (modal r.1) = false
  ∧ userNotes (modal r.1) = userNotes (modal w)
  ∧ customTags (modal r.1) = customTags (modal w)
  ∧ isWishlist (modal r.1) = isWishlist (modal w)
  ∧ auth r.1 = auth w ∧ coll r.1 = coll w
  ∧ selectedGame (app r.1)
    = (if answer is inl _ then None else selectedGame (app w))
  ∧ alerts (browser r.1)
    = alerts (browser w)
      ++ (if answer is inl _ then []
          else [lit "This game is already in your collection!"]).
Proof.
  apply (add_signed_in_settles srv_ok
           (typed_tags "family" (signed_in (lit "tok") alice)) carcassonne alice).
  reflexivity.
Defined.

(** [fetchCollection] sends one GET for the list asked for and never
    throws. A fulfilled response replaces the list held; a rejected one is
    logged and the list held before stays. Either way [loading] ends off. *)
Theorem fetchCollection_keeps_list_on_failure
    (srv : Server) (w : World) (isW : bool) :
  let answer := srv (length (sent (browser w)))
                  {| req := GetCollection isW;
                     authorization := authority_header w |} in
  let r := fetchCollection isW srv w in
  r.2 = inl ()
  ∧ coll_loading (coll r.1) = false
  ∧ sent_since w r.1
    = [{| req := GetCollection isW; authorization := authority_header w |}]
  ∧ collection (coll r.1)
    = (match answer with inl data => data | inr _ => collection (coll w) end)
  ∧ console (browser r.1)
    = console (browser w)
      ++ (match answer with
          | inl _ => []
          | inr e => [(lit "Error fetching collection:", e)]
          end)
  ∧ auth r.1 = auth w.
Proof.
  intros answer. subst answer. run_code fetchCollection.
  destruct (srv _ _); cbn; by rewrite drop_app_length, ?app_nil_r.
Qed.

(** When the DELETE is rejected, [removeFromCollection] logs it and stops:
    no re-list is sent, and the list held, its [loading] flag and the
    session stay as they were. Nothing is thrown or alerted. *)
Theorem remove_rejected_changes_nothing
    (srv : Server) (w : World) (isW : bool) (cid : nat) (e : AxiosError) :
  srv (length (sent (browser w)))
      {| req := DeleteCollection cid; authorization := authority_header w |}
  = inr e →
  let r := remove_from_collection isW cid srv w in
  r.2 = inl ()
  ∧ sent_since w r.1
    = [{| req := DeleteCollection cid; authorization := authority_header w |}]
  ∧ coll r.1 = coll w ∧ auth r.1 = auth w
  ∧ alerts (browser r.1) = alerts (browser w)
  ∧ console (browser r.1)
    = console (browser w) ++ [(lit "Error removing from collection:", e)].
Proof.
  intros Hsrv. unfold remove_from_collection, fetchCounts.
  run_code removeFromCollection. rewrite Hsrv. cbn.
  by rewrite drop_app_length.
Qed.

Lemma remove_rejected_changes_nothing_witness :
  let w := signed_in (lit "tok") alice in
  let r := remove_from_collection false 7 srv_down w in
  r.2 = inl ()
  ∧ sent_since w r.1
    = [{| req := DeleteCollection 7; authorization := authority_header w |}]
  ∧ coll r.1 = coll w ∧ auth r.1 = auth w
  ∧ alerts (browser r.1) = alerts (browser w)
  ∧ console (browser r.1)
    = console (browser w)
      ++ [(lit "Error removing from collection:", network_failure)].
Proof.
  apply (remove_rejected_changes_nothing srv_down (signed_in (lit "tok") alice)
           false 7 network_failure).
  reflexivity.
Defined.

(** After an accepted DELETE the list is fetched again, and the list held
    becomes what the authority then returns (or stays, if that fetch is
    rejected): the item is never taken out of the local list by hand. *)
Theorem remove_success_relists
    (srv : Server) (w : World) (isW : bool) (cid : nat) :
  srv (length (sent (browser w)))
      {| req := DeleteCollection cid; authorization := authority_header w |}
  = inl () →
  let relist := srv (S (length (sent (browser w))))
                  {| req := GetCollection isW;
                     authorization := authority_header w |} in
  let r := remove_from_collection isW cid srv w in
  r.2 = inl ()
  ∧ collection (coll r.1)
    = (match relist with inl data => data | inr _ => collection (coll w) end)
  ∧ coll_loading (coll r.1) = false
  ∧ alerts (browser r.1) = alerts (browser w).
Proof.
  intros Hsrv relist. subst relist. unfold remove_from_collection, fetchCounts.
  run_code removeFromCollection. rewrite Hsrv. cbn.
  run_code fetchCollection. rewrite length_app, Nat.add_1_r. simpl.
  clear Hsrv. by destruct (srv _ _).
Qed.

Lemma remove_success_relists_witness :
  let w := signed_in (lit "tok") alice in
  let relist := srv_ok (S (length (sent (browser w))))
                  {| req := GetCollection false;
                     authorization := authority_header w |} in
  let r := remove_from_collection false 7 srv_ok w in
  r.2 = inl ()
  ∧ collection (coll r.1)
    = (match relist with inl data => data | inr _ => collection (coll w) end)
  ∧ coll_loading (coll r.1) = false
  ∧ alerts (browser r.1) = alerts (browser w).
Proof.
  apply (remove_success_relists srv_ok (signed_in (lit "tok") alice) false 7).
  reflexivity.
Defined.

(* ===================================================================== *)
(** ** More on catalog search *)
(* ===================================================================== *)

(** What one event can add: at most one request, and only when a timer
    callback runs with a text of two code units or more, which uses that
    timer up; a keystroke adds at most one timer, for the text typed. *)
Lemma step_requests (ev : Event) (w0 w1 : SearchWorld) :
  step ev w0 = Some w1 →
  ∃ new, requests w1 = requests w0 ++ new
         ∧ length new + length (timers w1)
           ≤ length (timers w0) + (if is_typing ev then 1 else 0)
         ∧ Forall (λ q, 2 ≤ length q ∧ q ∈ timer_arg <$> timers w0) new
         ∧ Forall (λ t, t ∈ timers w0 ∨ ev = Typed (timer_arg t)) (timers w1).
Proof.
  intros Hstep. destruct ev as [v|ms|id|f r]; simpl in Hstep.
  - injection Hstep as <-. exists []. rewrite app_nil_r.
    unfold handleInputChange.
    assert (∀ w, requests w = requests w0 → timers w `sublist_of` timers w0 →
              let '(timeout, w3) := setTimeout v 300 w in
              requests (setSearchTimeout (Some timeout) w3) = requests w0
              ∧ length (timers (setSearchTimeout (Some timeout) w3))
                ≤ length (timers w0) + 1
              ∧ Forall (λ t, t ∈ timers w0 ∨ Typed v = Typed (timer_arg t))
                  (timers (setSearchTimeout (Some timeout) w3))) as Hset.
    { intros w Hreq Hsub. simpl. split; [done|]. split.
      - rewrite length_app. simpl. apply sublist_length in Hsub. lia.
      - apply Forall_app. split.
        + apply Forall_forall. intros t Ht. left.
          by eapply elem_of_sublist.
        + apply Forall_singleton. by right. }
    destruct (searchTimeout (ui w0)) as [[|k]|].
    + specialize (Hset (setQuery v w0) eq_refl (reflexivity _)).
      simpl in *. destruct Hset as (? & ? & ?). done.
    + specialize (Hset (clearTimeout (S k) (setQuery v w0)) eq_refl
                    (sublist_filter _ _)).
      simpl in *. destruct Hset as (? & ? & ?). done.
    + specialize (Hset (setQuery v w0) eq_refl (reflexivity _)).
      simpl in *. destruct Hset as (? & ? & ?). done.
  - injection Hstep as <-. exists []. rewrite app_nil_r. simpl.
    split; [done|]. split; [lia|]. split; [done|].
    apply Forall_forall. by left.
  - unfold find_timer in Hstep.
    destruct (List.find _ (timers w0)) as [t|] eqn:Hfind; [|done].
    destruct (due t <=? clock w0); [|done]. injection Hstep as <-.
    apply find_some in Hfind as [Hin Hid]. apply Nat.eqb_eq in Hid.
    apply list_elem_of_In in Hin.
    assert (length (filter (λ t0, timer_id t0 ≠ id) (timers w0))
            < length (timers w0)) as Hlen.
    { eapply length_filter_lt; [done|]. intros Hne. by apply Hne. }
    assert (Forall (λ t0, t0 ∈ timers w0 ∨ TimerFires id = Typed (timer_arg t0))
              (filter (λ t0, timer_id t0 ≠ id) (timers w0))) as Hall.
    { apply Forall_forall. intros t0 Ht0. left.
      by apply list_elem_of_filter in Ht0 as [_ ?]. }
    destruct (searchGames_call_frame (timer_arg t) (clearTimeout id w0))
      as (Htm & _).
    rewrite Htm. simpl timers.
    exists (if sendable (timer_arg t) then [timer_arg t] else []).
    split; [by rewrite searchGames_call_requests|].
    destruct (sendable (timer_arg t)) eqn:Hs.
    + split; [simpl length; lia|]. split; [|done].
      apply Forall_singleton. split.
      * apply andb_prop in Hs as [Hlong _]. by apply Nat.leb_le in Hlong.
      * apply list_elem_of_fmap. eauto.
    + split; [simpl length; lia|]. done.
  - destruct (decide _); [|done]. injection Hstep as <-.
    exists []. rewrite app_nil_r.
    assert (Forall (λ t, t ∈ timers w0 ∨ Settles f r = Typed (timer_arg t))
              (timers w0)) as Hall.
    { apply Forall_forall. by left. }
    destruct r; simpl; (split; [done|]); (split; [lia|]); done.
Qed.

Lemma run_requests (evs : list Event) (w0 w : SearchWorld) :
  run evs w0 = Some w →
  ∃ new, requests w = requests w0 ++ new
         ∧ length new + length (timers w)
           ≤ length (timers w0) + length (List.filter is_typing evs)
         ∧ Forall (λ q, 2 ≤ length q
                        ∧ (Typed q ∈ evs ∨ q ∈ timer_arg <$> timers w0)) new
         ∧ Forall (λ t, t ∈ timers w0 ∨ Typed (timer_arg t) ∈ evs) (timers w).
Proof.
  revert w0. induction evs as [|ev evs IH]; intros w0 Hrun; simpl in Hrun.
  - injection Hrun as <-. exists []. rewrite app_nil_r. simpl.
    split; [done|]. split; [lia|]. split; [done|].
    apply Forall_forall. by left.
  - destruct (step ev w0) as [w1|] eqn:Hstep; [|done].
    destruct (step_requests _ _ _ Hstep) as (new1 & Hr1 & Hl1 & Hq1 & Ht1).
    destruct (IH _ Hrun) as (new2 & Hr2 & Hl2 & Hq2 & Ht2).
    rewrite Forall_forall in Hq1. rewrite Forall_forall in Ht1.
    rewrite Forall_forall in Hq2. rewrite Forall_forall in Ht2.
    assert (∀ q, q ∈ timer_arg <$> timers w1 →
                 Typed q ∈ ev :: evs ∨ q ∈ timer_arg <$> timers w0) as Harg.
    { intros q (t & -> & Ht)%list_elem_of_fmap.
      destruct (Ht1 t Ht) as [?| ->]; [right|left; by left].
      apply list_elem_of_fmap. eauto. }
    exists (new1 ++ new2). rewrite Hr2, Hr1, <- app_assoc.
    split; [done|]. split.
    + rewrite length_app. simpl List.filter.
      destruct (is_typing ev); simpl length; lia.
    + split; apply Forall_forall.
      * intros q [Hq|Hq]%elem_of_app.
        -- destruct (Hq1 q Hq) as [? ?]. split; [done|]. by right.
        -- destruct (Hq2 q Hq) as [? [?|?]]; (split; [done|]).
           ++ left. by right.
           ++ by apply Harg.
      * intros t Ht. destruct (Ht2 t Ht) as [Hin|?]; [|right; by right].
        destruct (Ht1 t Hin) as [?| ->]; [by left|right; by left].
Qed.

(** Over any history of the component from its mount: it has sent no more
    search requests than there were keystrokes, and every request it sent
    is for a text that was typed and has at least two code units. *)
Theorem requests_come_from_typing (evs : list Event) (w : SearchWorld) :
  run evs initial_search = Some w →
  length (requests w) ≤ length (List.filter is_typing evs)
  ∧ Forall (λ q, 2 ≤ length q ∧ Typed q ∈ evs) (requests w).
Proof.
  intros Hrun.
  destruct (run_requests _ _ _ Hrun) as (new & Hr & Hl & Hq & _).
  simpl in Hr, Hl. subst. split; [lia|].
  eapply Forall_impl; [done|]. simpl.
  intros q [? [?|Hin]]; [done|]. by apply elem_of_nil in Hin.
Qed.

Lemma requests_come_from_typing_witness :
  let evs := [Typed (lit "c"); Elapse 100; Typed (lit "ca"); Elapse 300;
              TimerFires 2; Typed (lit "cat"); Elapse 300; TimerFires 3] in
  length (requests (default initial_search (run evs initial_search)))
  ≤ length (List.filter is_typing evs)
  ∧ Forall (λ q, 2 ≤ length q ∧ Typed q ∈ evs)
      (requests (default initial_search (run evs initial_search))).
Proof.
  apply (requests_come_from_typing
           [Typed (lit "c"); Elapse 100; Typed (lit "ca"); Elapse 300;
            TimerFires 2; Typed (lit "cat"); Elapse 300; TimerFires 3]).
  vm_compute. reflexivity.
Defined.

(** When a search response is a failure, the continuation empties the
    result set, whatever it showed, logs the error and turns [loading] off;
    the text typed, the pending timer and the other requests in flight are
    not touched. *)
Theorem failed_search_clears_results
    (w w' : SearchWorld) (f : nat) (e : AxiosError) :
  step (Settles f (inr e)) w = Some w' →
  searchResults (ui w') = []
  ∧ search_loading (ui w') = false
  ∧ search_console w' = search_console w ++ [(lit "Search error:", Rejected e)]
  ∧ query (ui w') = query (ui w)
  ∧ timers w' = timers w ∧ requests w' = requests w
  ∧ in_flight w' = filter (λ fl, flight_id fl ≠ f) (in_flight w).
Proof.
  simpl. destruct (decide _); [|done]. by intros [= <-].
Qed.

Lemma failed_search_clears_results_witness :
  let w := default initial_search
             (run [Typed (lit "cat"); Elapse 300; TimerFires 1;
                   Settles 0 (inl cat_results);
                   Typed (lit "catan"); Elapse 300; TimerFires 2]
                initial_search) in
  let w' := searchGames_resume (inr network_failure) (land_flight 1 w) in
  searchResults (ui w') = []
  ∧ search_loading (ui w') = false
  ∧ search_console w' = search_console w ++ [(lit "Search error:", Rejected network_failure)]
  ∧ query (ui w') = query (ui w)
  ∧ timers w' = timers w ∧ requests w' = requests w
  ∧ in_flight w' = filter (λ fl, flight_id fl ≠ 1) (in_flight w).
Proof.
  apply (failed_search_clears_results _ _ 1 network_failure).
  vm_compute. reflexivity.
Defined.

(** *** The pending callback and the text in the box *)

Lemma step_pending_is_query (ev : Event) (w w' : SearchWorld) :
  one_pending w →
  Forall (λ t, timer_arg t = query (ui w)) (timers w) →
  step ev w = Some w' →
  Forall (λ t, timer_arg t = query (ui w')) (timers w').
Proof.
  intros Hinv Hq Hstep. destruct ev as [v|ms|id|f r]; simpl in Hstep.
  - injection Hstep as <-.
    destruct (handleInputChange_reschedules v w Hinv) as (-> & _ & -> & _).
    by apply Forall_singleton.
  - by injection Hstep as <-.
  - destruct (find_timer id w) as [t|]; [|done].
    destruct (due t <=? clock w); [|done]. injection Hstep as <-.
    destruct (searchGames_call_frame (timer_arg t) (clearTimeout id w))
      as (-> & _ & _ & -> & _). simpl.
    rewrite Forall_forall in Hq. apply Forall_forall.
    intros t0 [_ Ht0]%list_elem_of_filter. by apply Hq.
  - destruct (decide _); [|done]. injection Hstep as <-.
    by destruct r.
Qed.

(** In every state the component can reach from its mount, at most one
    timer callback is pending, and it is for the text now in the box: a
    callback for an earlier text never survives a keystroke. *)
Theorem pending_search_is_for_current_text (evs : list Event) (w : SearchWorld) :
  run evs initial_search = Some w →
  length (timers w) ≤ 1
  ∧ Forall (λ t, timer_arg t = query (ui w)
                 ∧ searchTimeout (ui w) = Some (timer_id t)) (timers w).
Proof.
  intros Hrun.
  assert (∀ evs w0 w, one_pending w0 →
            Forall (λ t, timer_arg t = query (ui w0)) (timers w0) →
            run evs w0 = Some w →
            Forall (λ t, timer_arg t = query (ui w)) (timers w)) as Hgen.
  { clear. induction evs as [|ev evs IH]; intros w0 w Hinv Hq Hrun;
      simpl in Hrun.
    - by injection Hrun as <-.
    - destruct (step ev w0) as [w1|] eqn:Hstep; [|done].
      eapply IH; [| |done].
      + by eapply step_one_pending.
      + by eapply step_pending_is_query. }
  pose proof (Hgen evs initial_search w one_pending_initial
                (Forall_nil_2 _) Hrun) as Hq.
  destruct (run_one_pending _ _ _ one_pending_initial Hrun)
    as [_ [Hnone | (t & Hone & Hid & _)]].
  - rewrite Hnone. split; [simpl; lia | constructor].
  - rewrite Hone in Hq |- *. split; [simpl; lia|].
    apply Forall_singleton. split; [|done].
    by inversion Hq.
Qed.

Lemma pending_search_is_for_current_text_witness :
  let evs := [Typed (lit "c"); Elapse 100; Typed (lit "ca"); Elapse 100;
              Typed (lit "cat")] in
  let w := default initial_search (run evs initial_search) in
  length (timers w) ≤ 1
  ∧ Forall (λ t, timer_arg t = query (ui w)
                 ∧ searchTimeout (ui w) = Some (timer_id t)) (timers w).
Proof.
  apply (pending_search_is_for_current_text
           [Typed (lit "c"); Elapse 100; Typed (lit "ca"); Elapse 100;
            Typed (lit "cat")]).
  vm_compute. reflexivity.
Defined.

(* ===================================================================== *)
(** ** What is shown: descriptions, tag chips, the filtered list *)
(* ===================================================================== *)

(** *** Stripping markup from a description *)

Lemma replace_tags_sublist (in_tag : bool) (s : jsstring) :
  replace_tags in_tag s `sublist_of` s.
Proof.
  revert in_tag. induction s as [|c s IH]; intros in_tag; simpl; [done|].
  destruct in_tag.
  - destruct (c =? gt_sign)%N; by apply sublist_cons.
  - destruct (_ && _); [by apply sublist_cons | by apply sublist_skip].
Qed.

Lemma replace_tags_tag_free (in_tag : bool) (s : jsstring) :
  tag_free (replace_tags in_tag s).
Proof.
  revert in_tag. induction s as [|c s IH]; intros in_tag; simpl.
  - intros l r Heq. by destruct l.
  - destruct in_tag.
    + destruct (c =? gt_sign)%N; apply IH.
    + destruct ((c =? lt_sign)%N && bool_decide (gt_sign ∈ s)) eqn:Hopen;
        [apply IH|].
      intros [|c' l] r Heq; simpl in Heq.
      * injection Heq as -> <-.
        rewrite N.eqb_refl in Hopen. simpl in Hopen.
        apply bool_decide_eq_false in Hopen.
        intros Hin. apply Hopen.
        eapply elem_of_sublist; [done | apply replace_tags_sublist].
      * injection Heq as -> Heq. by eapply IH.
Qed.

Lemma strip_tags_fixes_tag_free (s : jsstring) :
  tag_free s → strip_tags s = s.
Proof.
  unfold strip_tags. induction s as [|c s IH]; intros Hfree; simpl; [done|].
  destruct ((c =? lt_sign)%N && bool_decide (gt_sign ∈ s)) eqn:Hopen.
  - apply andb_prop in Hopen as [Hc Hgt].
    apply N.eqb_eq in Hc. subst c.
    apply bool_decide_eq_true in Hgt.
    by destruct (Hfree [] s eq_refl).
  - f_equal. apply IH. intros l r ->. apply (Hfree (c :: l) r). done.
Qed.

(** In the description shown, ahead of the closing dots stand at most 400
    code units; they are code units of the description, in their order,
    and no tag is left among them: no '<' there has a '>' after it. *)
Theorem description_shown_has_no_tag (description : jsstring) :
  ∃ body, description_shown description = body ++ lit "..."
          ∧ length body ≤ 400
          ∧ body `sublist_of` description
          ∧ tag_free body.
Proof.
  exists (take 400 (strip_tags description)).
  split; [done|]. split; [rewrite length_take; lia|]. split.
  - etrans; [apply sublist_take | apply replace_tags_sublist].
  - intros l r Heq.
    pose proof (replace_tags_tag_free false description) as Hfree.
    fold (strip_tags description) in Hfree.
    rewrite <- (take_drop 400 (strip_tags description)), Heq in Hfree.
    intros Hin. apply (Hfree l (r ++ drop 400 (strip_tags description))).
    + by rewrite <- app_assoc.
    + apply elem_of_app. by left.
Qed.

(** Stripping leaves alone a text without tags, in particular one without
    any '<' or without any '>', so stripping twice is stripping once. *)
Theorem strip_tags_idempotent (s : jsstring) :
  strip_tags (strip_tags s) = strip_tags s
  ∧ (lt_sign ∉ s ∨ gt_sign ∉ s → strip_tags s = s).
Proof.
  split.
  - apply strip_tags_fixes_tag_free, replace_tags_tag_free.
  - intros Hno. apply strip_tags_fixes_tag_free. intros l r -> Hgt.
    destruct Hno as [Hno|Hno]; apply Hno.
    + apply elem_of_app. right. by left.
    + apply elem_of_app. right. by right.
Qed.

Example strip_tags_samples :
  strip_tags (lit "<p>Trade <b>wood</b> for sheep.</p>") = lit "Trade wood for sheep."
  ∧ strip_tags (lit "2 < 3 and 4 > 1") = lit "2  1"
  ∧ strip_tags (lit "a > b < c") = lit "a > b < c"
  ∧ strip_tags (lit "<<a>b>") = lit "b>".
Proof. repeat split; reflexivity. Qed.

(** *** Tag chips *)

(** A card shows the first three tags at most and accounts for the rest
    in its "+n" chip: chips shown plus n is the number of tags, and the
    chip never reads "+0". *)
Theorem tag_chips_account_for_all (tags : list jsstring) :
  let '(shown, more) := tag_chips tags in
  shown `prefix_of` tags
  ∧ length shown ≤ 3
  ∧ length shown + default 0 more = length tags
  ∧ more ≠ Some 0
  ∧ (more = None ↔ length tags ≤ 3).
Proof.
  unfold tag_chips.
  split; [apply prefix_take|].
  rewrite length_take.
  destruct (Nat.ltb_spec 3 (length tags)) as [Hlt|Hle].
  - rewrite Nat.min_l by lia. simpl.
    split; [lia|]. split; [lia|]. split; [intros [= Hz]; lia|].
    split; [done|lia].
  - rewrite Nat.min_r by lia. simpl.
    split; [lia|]. split; [lia|]. split; [done|]. done.
Qed.

(** *** [includes] *)

Lemma startsWith_spec (s p : jsstring) :
  startsWith s p = true ↔ ∃ r, s = p ++ r.
Proof.
  revert s. induction p as [|a p IH]; intros s; simpl.
  - split; [by exists s | by destruct s].
  - destruct s as [|b s]; simpl; [split; [done | by intros (r & [=])]|].
    rewrite andb_true_iff, N.eqb_eq, IH. split.
    + intros [-> (r & ->)]. by exists r.
    + intros (r & [= -> ->]). split; [done | by exists r].
Qed.

Lemma includes_nil (p : jsstring) : includes [] p = startsWith [] p.
Proof. simpl. apply orb_false_r. Qed.

Lemma includes_cons (c : N) (s p : jsstring) :
  includes (c :: s) p = startsWith (c :: s) p || includes s p.
Proof. reflexivity. Qed.

(** [s.includes(p)] holds exactly when [p] occurs in [s] as a run of
    consecutive code units. *)
Lemma includes_spec (s p : jsstring) :
  includes s p = true ↔ ∃ l r, s = l ++ p ++ r.
Proof.
  induction s as [|c s IH].
  - rewrite includes_nil, startsWith_spec. split.
    + intros (r & Hr). by exists [], r.
    + intros (l & r & Heq). destruct l; [by exists r|done].
  - rewrite includes_cons, orb_true_iff, IH, startsWith_spec. split.
    + intros [(r & Hr) | (l & r & ->)]; [by exists [], r|].
      by exists (c :: l), r.
    + intros ([|c' l] & r & Heq); simpl in Heq.
      * left. by exists r.
      * injection Heq as -> ->. right. by exists l, r.
Qed.

(** *** Sorting *)

Lemma sort_insert_perm {A} (cmp : A → A → Z) (x : A) (l : list A) :
  sort_insert cmp x l ≡ₚ x :: l.
Proof.
  induction l as [|y l IH]; simpl; [done|].
  destruct (0 <? cmp x y)%Z; [|done].
  rewrite IH. apply perm_swap.
Qed.

Lemma Array_sort_perm {A} (cmp : A → A → Z) (l : list A) :
  Array_sort cmp l ≡ₚ l.
Proof.
  induction l as [|x l IH]; simpl; [done|].
  by rewrite sort_insert_perm, IH.
Qed.

Lemma Array_sort_ext {A} (cmp cmp' : A → A → Z) (l : list A) :
  (∀ a b, cmp a b = cmp' a b) → Array_sort cmp l = Array_sort cmp' l.
Proof.
  intros Heq. induction l as [|x l IH]; simpl; [done|]. rewrite IH.
  generalize (Array_sort cmp' l). intros s.
  induction s as [|y s IHs]; simpl; [done|]. by rewrite Heq, IHs.
Qed.

(** A comparator that is the difference of a key, the second argument's
    first: the sort puts the greatest key first and leaves items of the
    same key in the order they had, and no other list does both. *)
Section KeySort.

Context {A : Type} (key : A → Z) (cmp : A → A → Z).
Hypothesis cmp_key : ∀ a b, cmp a b = (key b - key a)%Z.

Lemma sort_insert_key_sorted (x : A) (l : list A) :
  StronglySorted (λ a b, (key b ≤ key a)%Z) l →
  StronglySorted (λ a b, (key b ≤ key a)%Z) (sort_insert cmp x l).
Proof using cmp_key.
  induction 1 as [|y l Hsorted IH Hall]; simpl.
  - by repeat constructor.
  - rewrite cmp_key.
    destruct (Z.ltb_spec 0 (key y - key x)) as [Hlt|Hge].
    + constructor; [done|].
      rewrite sort_insert_perm. constructor; [lia | done].
    + constructor; [by constructor|].
      constructor; [lia|].
      eapply Forall_impl; [done|]. cbn. intros z Hz. lia.
Qed.

Lemma Array_sort_key_sorted (l : list A) :
  StronglySorted (λ a b, (key b ≤ key a)%Z) (Array_sort cmp l).
Proof using cmp_key.
  induction l as [|x l IH]; simpl; [constructor|].
  by apply sort_insert_key_sorted.
Qed.

Lemma sort_insert_key_stable (x : A) (l : list A) (k : Z) :
  filter (λ a, key a = k) (sort_insert cmp x l)
  = filter (λ a, key a = k) (x :: l).
Proof using cmp_key.
  induction l as [|z l IH]; simpl; [done|].
  rewrite cmp_key.
  destruct (Z.ltb_spec 0 (key z - key x)) as [Hlt|Hge]; [|done].
  rewrite (filter_cons _ z), IH, !filter_cons.
  repeat case_decide; try done. lia.
Qed.

Lemma Array_sort_key_stable (l : list A) (k : Z) :
  filter (λ a, key a = k) (Array_sort cmp l) = filter (λ a, key a = k) l.
Proof using cmp_key.
  induction l as [|x l IH]; simpl; [done|].
  rewrite sort_insert_key_stable, !filter_cons. by rewrite IH.
Qed.

Lemma key_sorted_unique (l1 l2 : list A) :
  StronglySorted (λ a b, (key b ≤ key a)%Z) l1 →
  StronglySorted (λ a b, (key b ≤ key a)%Z) l2 →
  (∀ k, filter (λ a, key a = k) l2 = filter (λ a, key a = k) l1) →
  l1 = l2.
Proof.
  intros Hs1. revert l2.
  induction Hs1 as [|x l1 Hs1 IH Hx]; intros l2 Hs2 Hsame.
  - destruct l2 as [|y l2]; [done|].
    specialize (Hsame (key y)).
    rewrite filter_cons_True in Hsame by done. done.
  - destruct Hs2 as [|y l2 Hs2 Hy].
    { specialize (Hsame (key x)).
      rewrite filter_cons_True in Hsame by done. done. }
    assert (key y ≤ key x)%Z as Hyx.
    { pose proof (Hsame (key y)) as Hk.
      rewrite (filter_cons_True _ y) in Hk by done.
      assert (y ∈ filter (λ a, key a = key y) (x :: l1))
        as [Hky Hin]%list_elem_of_filter by (rewrite <- Hk; by left).
      apply elem_of_cons in Hin as [->|Hin]; [done|].
      rewrite Forall_forall in Hx. specialize (Hx y Hin). cbn in Hx. lia. }
    assert (key x ≤ key y)%Z as Hxy.
    { pose proof (Hsame (key x)) as Hk.
      rewrite (filter_cons_True _ x) in Hk by done.
      assert (x ∈ filter (λ a, key a = key x) (y :: l2))
        as [Hkx Hin]%list_elem_of_filter by (rewrite Hk; by left).
      apply elem_of_cons in Hin as [->|Hin]; [done|].
      rewrite Forall_forall in Hy. specialize (Hy x Hin). cbn in Hy. lia. }
    pose proof (Hsame (key x)) as Hk.
    rewrite !filter_cons_True in Hk by lia.
    injection Hk as -> Hk. f_equal. apply IH; [done|].
    intros k. specialize (Hsame k). rewrite !filter_cons in Hsame.
    case_decide; [by injection Hsame | done].
Qed.

(** In a list sorted so, whatever stands before an item has a key at
    least as great, and whatever stands after it one at most as great. *)
Lemma key_sorted_around (l1 l2 : list A) (x : A) :
  StronglySorted (λ a b, (key b ≤ key a)%Z) (l1 ++ x :: l2) →
  Forall (λ a, (key x ≤ key a)%Z) l1 ∧ Forall (λ b, (key b ≤ key x)%Z) l2.
Proof.
  induction l1 as [|y l1 IH]; simpl; intros Hs.
  - split; [constructor|]. by apply StronglySorted_inv in Hs as [_ Hall].
  - apply StronglySorted_inv in Hs as [Hs Hall].
    destruct (IH Hs) as [Hbefore Hafter]. split; [|done].
    constructor; [|done].
    rewrite Forall_forall in Hall. apply Hall.
    apply elem_of_app. right. by left.
Qed.

End KeySort.

(** *** By year *)

Lemma Array_sort_year_sorted (l : list CollectionItem) :
  StronglySorted year_desc (Array_sort compare_year l).
Proof. exact (Array_sort_key_sorted year_or_0 compare_year (λ _ _, eq_refl) l). Qed.

Lemma Array_sort_year_stable (l : list CollectionItem) :
  same_order_within_years l (Array_sort compare_year l).
Proof.
  intros y.
  exact (Array_sort_key_stable year_or_0 compare_year (λ _ _, eq_refl) l y).
Qed.

(** Two lists in the comparator's order that agree, year by year, on which
    games they hold and in what order, are the same list. *)
Lemma year_sorted_unique (l1 l2 : list CollectionItem) :
  StronglySorted year_desc l1 → StronglySorted year_desc l2 →
  same_order_within_years l1 l2 → l1 = l2.
Proof. exact (key_sorted_unique year_or_0 l1 l2). Qed.

(** *** By date added *)

Lemma Array_sort_date_sorted (l : list CollectionItem) :
  StronglySorted newest_first (Array_sort compare_date l).
Proof.
  pose proof (Array_sort_key_sorted (λ item, Z.of_nat (date_added item))
                compare_date (λ _ _, eq_refl) l) as Hs.
  induction Hs as [|x s Hs IH Hall]; constructor; [done|].
  eapply Forall_impl; [done|]. unfold newest_first. cbn. intros y Hy. lia.
Qed.

Lemma Array_sort_date_stable (l : list CollectionItem) :
  same_order_within_dates l (Array_sort compare_date l).
Proof.
  intros d.
  pose proof (Array_sort_key_stable (λ item, Z.of_nat (date_added item))
                compare_date (λ _ _, eq_refl) l (Z.of_nat d)) as Hk.
  rewrite (list_filter_iff (λ item, date_added item = d)
             (λ item, Z.of_nat (date_added item) = Z.of_nat d))
    by (intros; lia).
  rewrite Hk. apply list_filter_iff. intros; lia.
Qed.

(** The comparator the selector picks. *)
Lemma sort_comparator_year {engine : Builtins} (a b : CollectionItem) :
  sort_comparator (lit "year") a b = compare_year a b.
Proof. reflexivity. Qed.

Lemma sort_comparator_default {engine : Builtins} (sort_by : jsstring)
    (a b : CollectionItem) :
  sort_by ∉ [lit "name"; lit "rating"; lit "year"] →
  sort_comparator sort_by a b = compare_date a b.
Proof.
  intros Hnot. unfold sort_comparator.
  repeat case_decide; try done; subst;
    exfalso; apply Hnot; set_solver.
Qed.

(** *** The filtered, sorted list *)

Section CollectionViewFacts.

Variable toLowerCase : jsstring → jsstring.

Lemma matches_filter_occurs (filter_text : jsstring) (item : CollectionItem) :
  matches_filter toLowerCase filter_text item = true
  ↔ occurs_in (toLowerCase filter_text) (toLowerCase (name (game item)))
    ∨ ∃ tag, tag ∈ custom_tags item
             ∧ occurs_in (toLowerCase filter_text) (toLowerCase tag).
Proof.
  unfold matches_filter, occurs_in.
  rewrite orb_true_iff, includes_spec, existsb_exists.
  apply or_iff_compat_l. split.
  - intros (tag & Hin & Hinc). exists tag.
    split; [by apply list_elem_of_In | by apply includes_spec].
  - intros (tag & Hin & Hocc). exists tag.
    split; [by apply list_elem_of_In | by apply includes_spec].
Qed.

(** The list the filter leaves holds, in the order fetched, exactly the
    items for which the lower-cased filter text occurs, as a run of
    consecutive code units, in the lower-cased name or in one of the
    lower-cased tags. *)
Theorem filter_keeps_exactly_matches
    (filter_text : jsstring) (collection : list CollectionItem) :
  let kept := List.filter (matches_filter toLowerCase filter_text) collection in
  kept `sublist_of` collection
  ∧ ∀ item, item ∈ kept
            ↔ item ∈ collection
              ∧ (occurs_in (toLowerCase filter_text) (toLowerCase (name (game item)))
                 ∨ ∃ tag, tag ∈ custom_tags item
                          ∧ occurs_in (toLowerCase filter_text) (toLowerCase tag)).
Proof.
  intros kept. subst kept. split.
  - induction collection as [|item l IH]; simpl; [done|].
    destruct (matches_filter _ _ _); [by apply sublist_skip | by apply sublist_cons].
  - intros item. rewrite list_elem_of_In, filter_In, <- list_elem_of_In.
    by rewrite matches_filter_occurs.
Qed.

Lemma filter_nothing_typed (collection : list CollectionItem) :
  toLowerCase [] = [] →
  List.filter (matches_filter toLowerCase []) collection = collection.
Proof.
  intros Hlow. induction collection as [|item l IH]; [done|]. simpl.
  assert (matches_filter toLowerCase [] item = true) as ->.
  { apply matches_filter_occurs. left. rewrite Hlow.
    by exists [], (toLowerCase (name (game item))). }
  by rewrite IH.
Qed.

(** With nothing typed in the filter box every item passes, so the list
    shown is the whole list fetched, in the comparator's order. *)
Theorem empty_filter_keeps_everything (collection : list CollectionItem) :
  toLowerCase [] = [] →
  List.filter (matches_filter toLowerCase []) collection = collection
  ∧ filtered_by_year toLowerCase [] collection = Array_sort compare_year collection.
Proof.
  intros Hlow.
  pose proof (filter_nothing_typed collection Hlow) as Hall.
  unfold filtered_by_year. by rewrite Hall.
Qed.

(** Sorted by year, the list shown holds exactly the items that pass the
    filter, each as often as the list fetched holds it; it runs from the
    latest year down, a game without a year counting as one of the year 0:
    every game before it has a year of 0 or later (or none), every game
    after it a year of 0 or earlier (or none), so that it comes after the
    games of the common era and before those from before it; and games of
    the same year keep the order the authority returned them in. It is
    the only list with these properties. *)
Theorem filtered_by_year_stable_sorted
    (filter_text : jsstring) (collection : list CollectionItem) :
  let kept := List.filter (matches_filter toLowerCase filter_text) collection in
  let shown := filtered_by_year toLowerCase filter_text collection in
  shown ≡ₚ kept
  ∧ StronglySorted year_desc shown
  ∧ (∀ before item after,
       shown = before ++ item :: after →
       year_published (game item) = None →
       Forall (λ a, (0 ≤ year_or_0 a)%Z) before
       ∧ Forall (λ b, (year_or_0 b ≤ 0)%Z) after)
  ∧ same_order_within_years kept shown
  ∧ ∀ l, StronglySorted year_desc l → same_order_within_years kept l →
         l = shown.
Proof.
  intros kept shown. unfold shown, filtered_by_year. fold kept.
  split; [apply Array_sort_perm|].
  split; [apply Array_sort_year_sorted|].
  split.
  { intros before item after Heq Hnone.
    pose proof (Array_sort_year_sorted kept) as Hs. rewrite Heq in Hs.
    apply (key_sorted_around year_or_0) in Hs.
    assert (year_or_0 item = 0%Z) as Hzero
      by (unfold year_or_0; by rewrite Hnone).
    by rewrite Hzero in Hs. }
  split; [apply Array_sort_year_stable|].
  intros l Hsorted Hsame.
  apply year_sorted_unique; [done | apply Array_sort_year_sorted |].
  intros y. rewrite Array_sort_year_stable. symmetry. apply Hsame.
Qed.

End CollectionViewFacts.

Lemma empty_filter_keeps_everything_witness :
  List.filter (matches_filter ascii_toLowerCase []) shelf = shelf
  ∧ filtered_by_year ascii_toLowerCase [] shelf = Array_sort compare_year shelf.
Proof.
  apply (empty_filter_keeps_everything ascii_toLowerCase shelf). reflexivity.
Defined.

Example filtered_by_year_sample :
  filtered_by_year ascii_toLowerCase [] shelf
  = [carcassonne_owned; catan_owned; prototype_owned]
  ∧ filtered_by_year ascii_toLowerCase (lit "FAMILY") shelf
    = [carcassonne_owned; catan_owned]
  ∧ filtered_by_year ascii_toLowerCase (lit "tan") shelf = [catan_owned].
Proof. repeat split; reflexivity. Qed.

(** A game without a year is not last when the list holds a game from
    before the common era. *)
Example filtered_by_year_before_common_era :
  filtered_by_year ascii_toLowerCase [] old_shelf
  = [catan_owned; prototype_owned; senet_owned].
Proof. reflexivity. Qed.

(** *** What [Collection] shows *)

(** With the selector on 'year' the list shown is the one above. *)
Lemma filteredAndSortedCollection_year {engine : Builtins}
    (c : CollectionControls) (collection : list CollectionItem) :
  sortBy c = lit "year" →
  filteredAndSortedCollection c collection
  = filtered_by_year String_toLowerCase (filter_text c) collection.
Proof. intros Hyear. unfold filteredAndSortedCollection. by rewrite Hyear. Qed.

Lemma filteredAndSortedCollection_default {engine : Builtins}
    (c : CollectionControls) (collection : list CollectionItem) :
  sortBy c ∉ [lit "name"; lit "rating"; lit "year"] →
  filteredAndSortedCollection c collection
  = Array_sort compare_date
      (List.filter (matches_filter String_toLowerCase (filter_text c)) collection).
Proof.
  intros Hnot. apply Array_sort_ext. intros a b.
  by apply sort_comparator_default.
Qed.

(** With a profile in the session, listing sends one GET for the flag
    asked for, under the header attached, and keeps the list the authority
    returned. An empty answer shows the empty-list screen. Otherwise the
    grid shows the items of the answer that pass the filter, each as often
    as the answer holds it, in the order the sort selector asks for, which
    need not be the authority's: with the selector on 'date_added', as it
    is on mount, latest addition first and items added at the same time in
    the authority's order. With nothing typed in the filter box, as on
    mount, every item of the answer passes. *)
Theorem list_authenticated_shows_fetched {engine : Builtins}
    (c : CollectionControls) (srv : Server) (w : World) (isW : bool)
    (p : Profile) (data : list CollectionItem) :
  user (auth w) = Some p →
  srv (length (sent (browser w)))
      {| req := GetCollection isW; authorization := authority_header w |}
  = inl data →
  let r := list_collection_with c isW srv w in
  let kept :=
    List.filter (matches_filter String_toLowerCase (filter_text c)) data in
  (∃ v, r.2 = inl v
        ∧ v = (if data is [] then EmptyView
               else GridView (filteredAndSortedCollection c data))
        ∧ items_shown v ≡ₚ kept
        ∧ (filter_text c = [] → kept = data)
        ∧ (sortBy c ∉ [lit "name"; lit "rating"; lit "year"] →
           StronglySorted newest_first (items_shown v)
           ∧ same_order_within_dates kept (items_shown v)))
  ∧ sent_since w r.1
    = [{| req := GetCollection isW; authorization := authority_header w |}]
  ∧ collection (coll r.1) = data.
Proof.
  intros Hu Hsrv r kept. subst r.
  run_code @list_collection_with. run_code Collection_effect.
  rewrite Hu. run_code fetchCollection. rewrite Hsrv. cbn.
  unfold Collection_render. cbn. rewrite Hu, drop_app_length.
  split; [|done]. eexists. split; [done|].
  assert (filter_text c = [] → kept = data) as Hall.
  { intros Hempty. unfold kept. rewrite Hempty.
    apply filter_nothing_typed, toLowerCase_empty. }
  destruct data as [|item data].
  { split; [done|]. split; [done|]. split; [done|]. intros _.
    split; [constructor | done]. }
  cbn [items_shown]. split; [done|]. split; [apply Array_sort_perm|].
  split; [done|]. intros Hnot.
  rewrite filteredAndSortedCollection_default by done. fold kept.
  split; [apply Array_sort_date_sorted | apply Array_sort_date_stable].
Qed.

Lemma list_authenticated_shows_fetched_witness :
  let w := signed_in (lit "tok") alice in
  let r := list_collection (engine:=ascii_engine) false srv_three w in
  let kept := List.filter (matches_filter ascii_toLowerCase []) shelf in
  (∃ v, r.2 = inl v
        ∧ v = GridView (filteredAndSortedCollection (engine:=ascii_engine)
                          initial_controls shelf)
        ∧ items_shown v ≡ₚ kept
        ∧ (filter_text initial_controls = [] → kept = shelf)
        ∧ (sortBy initial_controls ∉ [lit "name"; lit "rating"; lit "year"] →
           StronglySorted newest_first (items_shown v)
           ∧ same_order_within_dates kept (items_shown v)))
  ∧ sent_since w r.1
    = [{| req := GetCollection false; authorization := authority_header w |}]
  ∧ collection (coll r.1) = shelf.
Proof.
  apply (list_authenticated_shows_fetched (engine:=ascii_engine)
           initial_controls srv_three (signed_in (lit "tok") alice) false
           alice shelf);
    vm_compute; reflexivity.
Defined.

(** On mount the three games the authority lists come out latest
    addition first, not in the authority's order; with the selector on
    'name' and an a typed, the two games with an a in their name are left,
    by name. *)
Example list_collection_sample :
  let w := signed_in (lit "tok") alice in
  (list_collection (engine:=ascii_engine) false srv_three w).2
  = inl (GridView [prototype_owned; carcassonne_owned; catan_owned])
  ∧ (list_collection_with (engine:=ascii_engine)
       {| filter_text := lit "a"; sortBy := lit "name" |} false srv_three w).2
    = inl (GridView [carcassonne_owned; catan_owned]).
Proof. split; vm_compute; reflexivity. Qed.

(* ===================================================================== *)
(** ** The sign-in dialog *)
(* ===================================================================== *)



Example handleSubmit_samples :
  (handleSubmit (openAuthModal None) (form_filled "alice" "pw")
     srv_accounts anonymous_world).2
  = inl ({| isOpen := false; mode := lit "login" |},
         {| formData := empty_form; modal_loading := false;
            modal_error := JsStr [] |})
  ∧ (handleSubmit (openAuthModal None) (form_filled "alice" "oops")
       srv_accounts anonymous_world).2
    = inl (openAuthModal None,
           {| formData := formData (form_filled "alice" "oops");
              modal_loading := false;
              modal_error := JsStr (lit "Incorrect username or password") |})
  ∧ (handleSubmit (openAuthModal (Some (lit "register"))) (form_filled "alice" "secret")
       srv_accounts anonymous_world).2
    = inl (openAuthModal (Some (lit "register")),
           {| formData := formData (form_filled "alice" "secret");
              modal_loading := false;
              modal_error := JsStr (lit "Username already registered") |})
  ∧ (handleSubmit (openAuthModal (Some (lit "register"))) (form_filled "al" "pw")
       srv_validation anonymous_world).2
    = inl (openAuthModal (Some (lit "register")),
           {| formData := formData (form_filled "al" "pw");
              modal_loading := false;
              modal_error := JsOther true 422 |}).
Proof. repeat split; vm_compute; reflexivity. Qed.

(** Switching the dialog's mode neither opens nor closes it. From 'login'
    it goes to 'register', from anything else to 'login'; so on the two
    modes the dialog is opened in, switching twice changes nothing. *)
Theorem switchAuthMode_toggles (authModal : AuthModalCell) :
  isOpen (switchAuthMode authModal) = isOpen authModal
  ∧ (mode authModal = lit "login" →
     mode (switchAuthMode authModal) = lit "register")
  ∧ (mode authModal ≠ lit "login" →
     mode (switchAuthMode authModal) = lit "login")
  ∧ (mode authModal = lit "login" ∨ mode authModal = lit "register" →
     switchAuthMode (switchAuthMode authModal) = authModal).
Proof.
  destruct authModal as [o m]. unfold switchAuthMode. simpl.
  split; [done|]. split; [intros ->; by rewrite decide_True|].
  split; [intros Hm; by rewrite decide_False|].
  intros [-> | ->]; f_equal.
Qed.

(* ===================================================================== *)
(** ** The earlier App's counters *)
(* ===================================================================== *)

(** The earlier [fetchCounts] always sends both GETs, owned list first, and
    never throws. When both are fulfilled the two counters become the
    lengths of the two lists; when either is rejected neither counter
    changes and one error is logged. *)
Theorem earlier_fetchCounts_all_or_nothing
    (srv : Server) (w : World) (second_first : bool) (counts : TabCounts) :
  let owned := srv (length (sent (browser w)))
                 {| req := GetCollection false;
                    authorization := authority_header w |} in
  let wished := srv (S (length (sent (browser w))))
                  {| req := GetCollection true;
                     authorization := authority_header w |} in
  let r := earlier_fetchCounts second_first counts srv w in
  sent_since w r.1
  = [{| req := GetCollection false; authorization := authority_header w |};
     {| req := GetCollection true; authorization := authority_header w |}]
  ∧ match owned, wished with
    | inl a, inl b =>
        r.2 = inl {| collectionCount := length a; wishlistCount := length b |}
        ∧ console (browser r.1) = console (browser w)
    | _, _ =>
        r.2 = inl counts
        ∧ length (console (browser r.1)) = S (length (console (browser w)))
    end.
Proof.
  intros owned wished. subst owned wished.
  run_code earlier_fetchCounts.
  rewrite length_app, Nat.add_1_r. simpl.
  destruct (srv (length _) _) as [a|ea]; destruct (srv (S _) _) as [b|eb];
    cbn; rewrite <- app_assoc, drop_app_length;
    (split; [done|]); rewrite ?length_app, ?Nat.add_1_r; done.
Qed.
